(** * ruru-ui: the modal dialog ([packages/ui/src/components/modal.tsx])

    A shallow embedding of the modal component family: [ModalProvider],
    [useModal], [Modal] (its escape-key effect and its render output),
    [Modal.Trigger], [Modal.Action] and [Modal.Close].

    The components are React function components.  The parts of the host
    they rely on are modelled explicitly and kept apart from the code of
    the repository:
    - props are JavaScript objects: finite maps from names to values,
      read with [get], taken apart with [delete] (rest destructuring) and
      merged in the order of the JSX attributes (the later one wins);
    - the provider's [useState] cell, the document's [keydown] listener
      list and the promises awaited by [async] handlers are fields of a
      [World];
    - a handler runs in a state-and-exception monad over the [World];
    - an event is handled to its end, and then React renders again and
      runs the [useEffect] of [Modal] when its dependency list changed
      ([commit]).  The time between a state change and the effect that
      follows it is not modelled;
    - what is on screen is kept apart from what [Modal] returns: a
      [Screen] adds to the world the layer that [AnimatePresence] keeps
      mounted while its exit animation runs.

    A trace of calls is kept in the [World] so that "is invoked" can be
    stated; the model writes to it and never reads it. *)

From stdpp Require Import gmap strings list fin_maps.

Local Open Scope string_scope.
Local Open Scope list_scope.

(** ** Values *)

(** What a caller-written function can do to the modal: call one of the
    two closures it obtained from [useModal()]. *)
Inductive Cmd := CallOpenModal | CallCloseModal.

(** Completion of a JavaScript call: a value, or a thrown error. *)
Inductive Completion (A : Type) :=
| Normal (a : A)
| Throw (e : string).
Arguments Normal {A} a.
Arguments Throw {A} e.

(** Prop values, functions a caller can pass, the closures the components
    create while rendering, and rendered nodes.  A promise is named by a
    number.  A caller's function is described by what it does when it is
    called: its name, the calls it makes to the modal before it returns,
    and how it completes (a value, possibly a promise, or an error).  What
    the application does to the modal later, for instance after an
    [await] of its own, is an event of its own ([EvCall]). *)
#[warnings="-register-all"]
Inductive Val :=
| VUndef
| VBool (b : bool)
| VStr (s : string)
| VPromise (p : nat)
| VFn (f : Fn)
| VNodes (ns : list Node)
with Fn :=
| FnOpenModal
| FnCloseModal
| FnUser (name : string) (body : list Cmd) (result : Completion Val)
with Closure :=
| StopPropagation
| TriggerHandleClick (openModal : Fn) (onClick : Val)
| ActionHandleClick (closeModal : Fn) (onClick : Val)
with Attr :=
| AVal (v : Val)
| AClosure (c : Closure)
with Node :=
| NEmpty
| NText (s : string)
| NElem (tag : string) (attrs : gmap string Attr) (children : list Node).

(** JavaScript truthiness, as used by [if (onClick)], [!context],
    [onClickOutside ? _ : _] and [isOpen && _]. *)
Definition truthy (v : Val) : bool :=
  match v with
  | VUndef => false
  | VBool b => b
  | VStr s => negb (String.eqb s "")
  | VPromise _ | VFn _ | VNodes _ => true
  end.

(** Reading a property of a props object: an absent key reads [undefined]. *)
Definition get (k : string) (o : gmap string Val) : Val :=
  default VUndef (o !! k).

(** ** The provider *)

(** [interface ModalContextProps]. *)
Record ModalContextProps := {
  isOpen : bool;
  openModal : Fn;
  closeModal : Fn;
}.

(** [useState<boolean>(false)]: the initial value of the cell. *)
Definition ModalProvider_initial : bool := false.

(** The value [ModalProvider] hands to [ModalContext.Provider] when its
    state cell holds [s]; the two [useCallback] closures have an empty
    dependency list, so they are the same closures at every render. *)
Definition ModalProvider (s : bool) : ModalContextProps :=
  {| isOpen := s; openModal := FnOpenModal; closeModal := FnCloseModal |}.

(** [useContext(ModalContext)]: the value of the nearest enclosing
    provider, or the default of [createContext], which is [undefined].
    The enclosing providers are listed innermost first. *)
Definition useContext (enclosing : list ModalContextProps)
  : option ModalContextProps :=
  head enclosing.

Definition useModal_error : string :=
  "useModal must be used within a ModalProvider".

(** [useModal]. *)
Definition useModal (enclosing : list ModalContextProps)
  : Completion ModalContextProps :=
  match useContext enclosing with
  | None => Throw useModal_error
  | Some context => Normal context
  end.

(** ** The world *)

Inductive Site :=
| ByApp                      (* application code, outside any handler below *)
| ByUser (name : string)     (* inside the caller's function [name] *)
| ByEscape                   (* [handleEscape] *)
| ByBackdrop                 (* React, for a click that reaches the backdrop layer *)
| ByElement                  (* React, for a click on another element *)
| ByTrigger                  (* [handleClick] of [Modal.Trigger] *)
| ByAction.                  (* [handleClick] of [Modal.Action] *)

Inductive Callee := COpenModal | CCloseModal | CUser (name : string).

Inductive Obs :=
| Invoked (site : Site) (callee : Callee)
| Uncaught (e : string)              (* error escaping an event handler *)
| Rejected.                          (* the promise of an [async] handler rejected *)

(** A [keydown] listener on [document]: the [handleEscape] closure made by
    one run of the effect.  Two runs make two different functions, so a
    listener is identified by the run that made it. *)
Record Listener := HandleEscape {
  l_id : nat;
  l_closeModal : Fn;
}.

(** The mounted [<Modal>]: the props of its last render, and what its last
    effect run closed over. *)
Record ModalInstance := {
  m_props : gmap string Val;
  m_deps : bool;             (* [isOpen] in the dependency list *)
  m_handler : Listener;      (* the [handleEscape] of that run *)
}.

Record World := {
  st_isOpen : bool;                  (* the provider's state cell *)
  st_modal : option ModalInstance;
  st_listeners : list Listener;      (* document, "keydown" *)
  st_next : nat;                     (* next closure identity *)
  st_settled : gmap nat bool;        (* settled promises: fulfilled? *)
  st_parked : list (nat * Fn);       (* [Modal.Action] clicks suspended at [await] *)
  st_trace : list Obs;
}.

Definition set_isOpen (b : bool) (w : World) : World :=
  {| st_isOpen := b; st_modal := st_modal w; st_listeners := st_listeners w;
     st_next := st_next w; st_settled := st_settled w;
     st_parked := st_parked w; st_trace := st_trace w |}.

Definition set_modal (m : option ModalInstance) (w : World) : World :=
  {| st_isOpen := st_isOpen w; st_modal := m; st_listeners := st_listeners w;
     st_next := st_next w; st_settled := st_settled w;
     st_parked := st_parked w; st_trace := st_trace w |}.

Definition set_listeners (ls : list Listener) (w : World) : World :=
  {| st_isOpen := st_isOpen w; st_modal := st_modal w; st_listeners := ls;
     st_next := st_next w; st_settled := st_settled w;
     st_parked := st_parked w; st_trace := st_trace w |}.

Definition set_next (n : nat) (w : World) : World :=
  {| st_isOpen := st_isOpen w; st_modal := st_modal w;
     st_listeners := st_listeners w; st_next := n;
     st_settled := st_settled w; st_parked := st_parked w;
     st_trace := st_trace w |}.

Definition set_settled (s : gmap nat bool) (w : World) : World :=
  {| st_isOpen := st_isOpen w; st_modal := st_modal w;
     st_listeners := st_listeners w; st_next := st_next w;
     st_settled := s; st_parked := st_parked w; st_trace := st_trace w |}.

Definition set_parked (ps : list (nat * Fn)) (w : World) : World :=
  {| st_isOpen := st_isOpen w; st_modal := st_modal w;
     st_listeners := st_listeners w; st_next := st_next w;
     st_settled := st_settled w; st_parked := ps; st_trace := st_trace w |}.

Definition observe (o : Obs) (w : World) : World :=
  {| st_isOpen := st_isOpen w; st_modal := st_modal w;
     st_listeners := st_listeners w; st_next := st_next w;
     st_settled := st_settled w; st_parked := st_parked w;
     st_trace := st_trace w ++ [o] |}.

(** ** Handlers: state and exceptions *)

Definition M (A : Type) : Type := World → Completion A * World.

Definition ret {A} (a : A) : M A := λ w, (Normal a, w).
Definition throw {A} (e : string) : M A := λ w, (Throw e, w).
Definition bind {A B} (m : M A) (k : A → M B) : M B :=
  λ w, match m w with
       | (Normal a, w') => k a w'
       | (Throw e, w') => (Throw e, w')
       end.
Definition modify (f : World → World) : M unit := λ w, (Normal tt, f w).

#[global] Instance M_ret : MRet M := @ret.
#[global] Instance M_bind : MBind M := λ A B k m, bind m k.

(** [setIsOpen(b)] of [useState]. *)
Definition setIsOpen (b : bool) : M unit := modify (set_isOpen b).

(** Calling a function a caller can pass.  [() => setIsOpen(true)] and
    [() => setIsOpen(false)] return what [setIsOpen] returns, [undefined]. *)
Definition run_cmd (site : Site) (c : Cmd) : M unit :=
  match c with
  | CallOpenModal => modify (observe (Invoked site COpenModal)) ;; setIsOpen true
  | CallCloseModal => modify (observe (Invoked site CCloseModal)) ;; setIsOpen false
  end.

Fixpoint run_body (site : Site) (body : list Cmd) : M unit :=
  match body with
  | [] => ret tt
  | c :: rest => run_cmd site c ;; run_body site rest
  end.

Definition call_fn (site : Site) (f : Fn) : M Val :=
  match f with
  | FnOpenModal => run_cmd site CallOpenModal ;; ret VUndef
  | FnCloseModal => run_cmd site CallCloseModal ;; ret VUndef
  | FnUser name body result =>
      modify (observe (Invoked site (CUser name))) ;;
      run_body (ByUser name) body ;;
      match result with
      | Normal v => ret v
      | Throw e => throw e
      end
  end.

(** [v()]: calling something that is not a function is a [TypeError]. *)
Definition call (site : Site) (v : Val) : M Val :=
  match v with
  | VFn f => call_fn site f
  | _ => throw "TypeError: not a function"
  end.

(** Running a handler to completion on behalf of the host: an error that
    escapes is reported, the writes made before it stay. *)
Definition run_handler {A} (m : M A) (w : World) : World :=
  match m w with
  | (Normal _, w') => w'
  | (Throw e, w') => observe (Uncaught e) w'
  end.

(** Running the rest of an [async] function: an error rejects the promise
    the function returned, which nobody awaits. *)
Definition run_async {A} (m : M A) (w : World) : World :=
  match m w with
  | (Normal _, w') => w'
  | (Throw _, w') => observe Rejected w'
  end.

(** ** The document's listener list *)

(** [document.addEventListener("keydown", l)]: a function already
    registered is not registered twice. *)
Definition addEventListener (l : Listener) (doc : list Listener)
  : list Listener :=
  if existsb (λ l', Nat.eqb (l_id l') (l_id l)) doc then doc else doc ++ [l].

(** [document.removeEventListener("keydown", l)]: removing a function that
    is not registered does nothing. *)
Definition removeEventListener (l : Listener) (doc : list Listener)
  : list Listener :=
  filter (λ l', l_id l' ≠ l_id l) doc.

(** ** Modal: the escape-key effect (lines 184-198) *)

(** [handleEscape(event)], for the closure [l] and [event.key = key]. *)
Definition handleEscape (l : Listener) (key : string) : M unit :=
  if String.eqb key "Escape"
  then call_fn ByEscape (l_closeModal l) ;; mret tt
  else mret tt.

(** The body of the effect.  It makes a new [handleEscape] (identity
    [id]), registers it when [isOpen] and otherwise asks to remove it,
    and returns the cleanup, which removes that same function. *)
Definition Modal_effect (context : ModalContextProps) (id : nat) (w : World)
  : Listener * World :=
  let handle := HandleEscape id (closeModal context) in
  (handle,
   if isOpen context
   then set_listeners (addEventListener handle (st_listeners w)) w
   else set_listeners (removeEventListener handle (st_listeners w)) w).

Definition Modal_effect_cleanup (handle : Listener) (w : World) : World :=
  set_listeners (removeEventListener handle (st_listeners w)) w.

(** ** Render output *)

(** What React mounts for a [children] value. *)
Definition nodes_of (children : Val) : list Node :=
  match children with
  | VNodes ns => ns
  | VStr s => [NText s]
  | _ => []
  end.

Definition backdrop_className : string :=
  "fixed w-full h-full bg-[rgba(0,0,0,0.5)] flex justify-center items-center z-[999] left-0 top-0".
Definition panel_className : string :=
  "bg-background border w-full max-w-[500px] shadow-[0_2px_10px_rgba(0,0,0,0.1)] rounded-lg".

(** [Modal] (lines 177-182 and 221-245).  Attributes written later in a
    JSX tag win, so the spread [{...props}], written last on the backdrop,
    is on the left of the left-biased union.  The animation attributes
    ([initial], [animate], [exit], [variants]) are left out. *)
Definition Modal (enclosing : list ModalContextProps)
    (props : gmap string Val) : Completion Node :=
  match useModal enclosing with
  | Throw e => Throw e
  | Normal context =>
      let children := get "children" props in
      let onClickOutside := get "onClickOutside" props in
      let rest := delete "children" (delete "onClickOutside" props) in
      Normal (NElem "AnimatePresence" ∅
        [ if isOpen context then
            NElem "motion.div"
              ((AVal <$> rest) ∪
               <["onClick" := AVal (if truthy onClickOutside
                                    then onClickOutside
                                    else VFn (closeModal context))]>
                 {["className" := AVal (VStr backdrop_className)]})
              [ NElem "motion.div"
                  (<["onClick" := AClosure StopPropagation]>
                     {["className" := AVal (VStr panel_className)]})
                  (nodes_of children) ]
          else NEmpty ])
  end.

(** [Modal.Trigger] (lines 254-277).  [Button] is the library's button
    component; it hands its [onClick] to the element it renders. *)
Definition Modal_Trigger (enclosing : list ModalContextProps)
    (props : gmap string Val) : Completion Node :=
  match useModal enclosing with
  | Throw e => Throw e
  | Normal context =>
      let children := get "children" props in
      let handleClick :=
        TriggerHandleClick (openModal context) (get "onClick" props) in
      if truthy (get "asChild" props)
      then Normal (NElem "div"
                     (<["className" := AVal (VStr "cursor-pointer")]>
                        {["onClick" := AClosure handleClick]})
                     (nodes_of children))
      else Normal (NElem "Button" {["onClick" := AClosure handleClick]}
                     (nodes_of children))
  end.

(** [Modal.Action] (lines 383-407); the [className] computed with [cn] is
    left out.  The spread comes last but [onClick] was taken out of it. *)
Definition Modal_Action (enclosing : list ModalContextProps)
    (props : gmap string Val) : Completion Node :=
  match useModal enclosing with
  | Throw e => Throw e
  | Normal context =>
      let onClick := get "onClick" props in
      let rest :=
        delete "className" (delete "onClick" (delete "fullWidth" props)) in
      let handleClick := ActionHandleClick (closeModal context) onClick in
      Normal (NElem "Button"
                ((AVal <$> rest) ∪ {["onClick" := AClosure handleClick]})
                (nodes_of (get "children" rest)))
  end.

(** [Modal.Close] (lines 415-419): [onClick] is written after the spread. *)
Definition Modal_Close (enclosing : list ModalContextProps)
    (props : gmap string Val) : Completion Node :=
  match useModal enclosing with
  | Throw e => Throw e
  | Normal context =>
      Modal_Action enclosing
        (<["children" := get "children" props]>
           (<["onClick" := VFn (closeModal context)]> props))
  end.

(** ** Click handlers *)

(** [handleClick] of [Modal.Trigger] (lines 261-266). *)
Definition Trigger_handleClick (openModal : Fn) (onClick : Val) : M unit :=
  call_fn ByTrigger openModal ;;
  if truthy onClick then call ByTrigger onClick ;; mret tt else mret tt.

(** [handleClick] of [Modal.Action] (lines 391-396) is [async].  Its body
    runs up to the [await] inside the click; what follows the [await],
    [closeModal()], runs when the awaited value is available. *)
Definition Action_handleClick_resume (closeModal : Fn) : M Val :=
  call_fn ByAction closeModal.

(** [await v], followed by [closeModal()].  A value that is not a promise,
    or a promise already fulfilled, resumes the function before the next
    event; a rejected promise throws inside the function, which skips the
    rest of it; a pending promise suspends it. *)
Definition await (v : Val) (closeModal : Fn) (w : World) : World :=
  match v with
  | VPromise p =>
      match st_settled w !! p with
      | Some true => run_async (Action_handleClick_resume closeModal) w
      | Some false => observe Rejected w
      | None => set_parked (st_parked w ++ [(p, closeModal)]) w
      end
  | _ => run_async (Action_handleClick_resume closeModal) w
  end.

Definition Action_handleClick (closeModal : Fn) (onClick : Val) (w : World)
  : World :=
  if truthy onClick then
    match call ByAction onClick w with
    | (Normal v, w') => await v closeModal w'
    | (Throw _, w') => observe Rejected w'
    end
  else run_async (Action_handleClick_resume closeModal) w.

(** Calling the [onClick] attribute of an element.  [site] names the
    element when React calls a prop value directly. *)
Definition invoke (site : Site) (a : Attr) : M unit :=
  match a with
  | AVal v => call site v ;; mret tt
  | AClosure StopPropagation => mret tt
  | AClosure (TriggerHandleClick openModal onClick) =>
      Trigger_handleClick openModal onClick
  | AClosure (ActionHandleClick closeModal onClick) =>
      modify (Action_handleClick closeModal onClick)
  end.

Definition stops (a : Attr) : bool :=
  match a with
  | AClosure StopPropagation => true
  | _ => false
  end.

(** A click bubbles from its target through the ancestors ([path], target
    first) until a handler stops it. *)
Fixpoint bubble (site : Site) (path : list Node) (w : World) : World :=
  match path with
  | [] => w
  | NElem _ attrs _ :: up =>
      match attrs !! "onClick" with
      | Some a =>
          let w' := run_handler (invoke site a) w in
          if stops a then w' else bubble site up w'
      | None => bubble site up w
      end
  | _ :: up => bubble site up w
  end.

(** ** The host: mounting, committing, events *)

(** The providers around the components of the world: the one
    [ModalProvider], rendered with the current value of its cell. *)
Definition enclosing_of (w : World) : list ModalContextProps :=
  [ModalProvider (st_isOpen w)].

(** Running the effect of [Modal] afresh and remembering what it closed
    over.  [useModal] cannot throw here, the component is under the
    provider. *)
Definition run_effect (props : gmap string Val) (w : World) : World :=
  match useModal (enclosing_of w) with
  | Throw _ => w
  | Normal context =>
      let (handle, w') := Modal_effect context (st_next w) w in
      set_next (S (st_next w))
        (set_modal (Some {| m_props := props; m_deps := isOpen context;
                            m_handler := handle |}) w')
  end.

(** After an event React renders again.  The dependency list of the effect
    is [[isOpen, closeModal]] and [closeModal] never changes, so the
    effect runs again exactly when [isOpen] differs from the value of the
    last run: first the cleanup of that run, then the body. *)
Definition commit (w : World) : World :=
  match st_modal w with
  | None => w
  | Some m =>
      if Bool.eqb (m_deps m) (st_isOpen w) then w
      else run_effect (m_props m) (Modal_effect_cleanup (m_handler m) w)
  end.

(** The backdrop layer and the panel of a rendered [Modal], if mounted. *)
Definition layer_of (rendered : Completion Node) : option Node :=
  match rendered with
  | Normal (NElem _ _ [NElem tag attrs children]) =>
      Some (NElem tag attrs children)
  | _ => None
  end.

Definition panel_of (layer : Node) : option Node :=
  match layer with
  | NElem _ _ (panel :: _) => Some panel
  | _ => None
  end.

Inductive Event :=
| EvRenderModal (props : gmap string Val)   (* the parent renders <Modal> *)
| EvUnmountModal                            (* the parent drops it *)
| EvKeydown (key : string)                  (* a key goes down, seen by document *)
| EvClickBackdrop                           (* click on the layer itself *)
| EvClickPanel                              (* click on the panel *)
| EvClickTrigger (props : gmap string Val)  (* click on a <Modal.Trigger> *)
| EvClickAction (props : gmap string Val)   (* click on a <Modal.Action> *)
| EvClickClose (props : gmap string Val)    (* click on a <Modal.Close> *)
| EvCall (c : Cmd)                          (* the application calls a closure *)
| EvSettle (p : nat) (fulfilled : bool).    (* a promise settles *)

(** A click on a component rendered under the provider. *)
Definition click_on (rendered : Completion Node) (w : World) : World :=
  match rendered with
  | Normal n => bubble ByElement [n] w
  | Throw _ => w
  end.

(** A [keydown] reaching [document]: every listener registered at that
    moment is called. *)
Definition dispatch_keydown (key : string) (w : World) : World :=
  foldl (λ w' l, run_handler (handleEscape l key) w') w (st_listeners w).

(** A promise settles once.  The functions suspended on it resume, in the
    order in which they were suspended. *)
Definition resume_parked (fulfilled : bool) (closeModal : Fn) (w : World)
  : World :=
  if fulfilled
  then run_async (Action_handleClick_resume closeModal) w
  else observe Rejected w.

Definition settle (p : nat) (fulfilled : bool) (w : World) : World :=
  match st_settled w !! p with
  | Some _ => w
  | None =>
      let waiting := filter (λ e, e.1 = p) (st_parked w) in
      let others := filter (λ e, e.1 ≠ p) (st_parked w) in
      foldl (λ w' e, resume_parked fulfilled e.2 w')
        (set_parked others (set_settled (<[p := fulfilled]> (st_settled w)) w))
        waiting
  end.

Definition handle (ev : Event) (w : World) : World :=
  match ev with
  | EvRenderModal props =>
      match st_modal w with
      | None => run_effect props w
      | Some m =>
          set_modal (Some {| m_props := props; m_deps := m_deps m;
                             m_handler := m_handler m |}) w
      end
  | EvUnmountModal =>
      match st_modal w with
      | None => w
      | Some m => set_modal None (Modal_effect_cleanup (m_handler m) w)
      end
  | EvKeydown key => dispatch_keydown key w
  | EvClickBackdrop =>
      match st_modal w with
      | None => w
      | Some m =>
          match layer_of (Modal (enclosing_of w) (m_props m)) with
          | Some layer => bubble ByBackdrop [layer] w
          | None => w
          end
      end
  | EvClickPanel =>
      match st_modal w with
      | None => w
      | Some m =>
          match layer_of (Modal (enclosing_of w) (m_props m)) with
          | Some layer =>
              match panel_of layer with
              | Some panel => bubble ByBackdrop [panel; layer] w
              | None => w
              end
          | None => w
          end
      end
  | EvClickTrigger props => click_on (Modal_Trigger (enclosing_of w) props) w
  | EvClickAction props => click_on (Modal_Action (enclosing_of w) props) w
  | EvClickClose props => click_on (Modal_Close (enclosing_of w) props) w
  | EvCall c => run_handler (run_cmd ByApp c) w
  | EvSettle p fulfilled => settle p fulfilled w
  end.

Definition step (w : World) (ev : Event) : World := commit (handle ev w).

Definition run (w : World) (evs : list Event) : World := foldl step w evs.

(** The provider has just mounted: nothing else is there yet. *)
Definition mounted_provider : World :=
  {| st_isOpen := ModalProvider_initial; st_modal := None;
     st_listeners := []; st_next := 0; st_settled := ∅; st_parked := [];
     st_trace := [] |}.

(** ** The presentational components (lines 285-375)

    They read no context.  [cn] is the class-name helper of the library
    ([@/utils/cn]), which is not part of this file: it is a parameter. *)

Section Presentational.

Variable cn : list Val → string.

(** [Modal.Body]: the spread is written after [className="mb-5"]. *)
Definition Modal_Body (props : gmap string Val) : Node :=
  let children := get "children" props in
  let rest := delete "children" props in
  NElem "div"
    ((AVal <$> rest) ∪ {["className" := AVal (VStr "mb-5")]})
    (nodes_of children).

(** The shape shared by the five others: [children] and [className] are
    taken out of the props, the class is [cn(base, className)], and the
    spread of what is left is written after it. *)
Definition styled (tag base : string) (props : gmap string Val) : Node :=
  let children := get "children" props in
  let className := get "className" props in
  let rest := delete "className" (delete "children" props) in
  NElem tag
    ((AVal <$> rest) ∪
     {["className" := AVal (VStr (cn [VStr base; className]))]})
    (nodes_of children).

Definition Modal_Header : gmap string Val → Node :=
  styled "div" "mb-4 p-3 border-b".

Definition Modal_Title : gmap string Val → Node :=
  styled "p" "text-2xl".

Definition Modal_Content : gmap string Val → Node :=
  styled "div" "p-3".

Definition Modal_Subtitle : gmap string Val → Node :=
  styled "p" "text-sm text-muted-foreground mt-2".

Definition Modal_Actions : gmap string Val → Node :=
  styled "div"
    "bg-card border-t p-3 flex justify-between gap-2.5 rounded-br-[10px] rounded-bl-[10px] w-full".

End Presentational.

(** ** What is on screen: [AnimatePresence]

    [Modal] returns its layer inside [AnimatePresence] and gives the layer
    [exit] props (lines 222-229).  [AnimatePresence] is framer-motion's,
    not this repository's.  What is modelled of it: a child that is no
    longer returned stays mounted, as it was last rendered, until its
    exit animation is complete; a child that is returned again takes its
    place at once; when [AnimatePresence] itself unmounts nothing is
    kept. *)









(** * Vocabulary of the statements *)

(** ** What a call does to the world *)

(** Every handler of the repository acts on the world through calls of the
    provider's closures, so its effect is: a new value in the state cell
    and some lines added to the trace. *)
Definition touch (b : bool) (obs : list Obs) (w : World) : World :=
  {| st_isOpen := b; st_modal := st_modal w; st_listeners := st_listeners w;
     st_next := st_next w; st_settled := st_settled w;
     st_parked := st_parked w; st_trace := st_trace w ++ obs |}.

Definition callee_of (c : Cmd) : Callee :=
  match c with
  | CallOpenModal => COpenModal
  | CallCloseModal => CCloseModal
  end.

Definition flag_of (c : Cmd) : bool :=
  match c with
  | CallOpenModal => true
  | CallCloseModal => false
  end.

(** The cell after the calls of [body], and the trace they leave. *)
Definition body_flag (b : bool) (body : list Cmd) : bool :=
  foldl (λ _ c, flag_of c) b body.

Definition body_trace (site : Site) (body : list Cmd) : list Obs :=
  (λ c, Invoked site (callee_of c)) <$> body.

Definition fn_flag (f : Fn) (b : bool) : bool :=
  match f with
  | FnOpenModal => true
  | FnCloseModal => false
  | FnUser _ body _ => body_flag b body
  end.

Definition fn_trace (site : Site) (f : Fn) : list Obs :=
  match f with
  | FnOpenModal => [Invoked site COpenModal]
  | FnCloseModal => [Invoked site CCloseModal]
  | FnUser name body _ =>
      Invoked site (CUser name) :: body_trace (ByUser name) body
  end.

Definition fn_result (f : Fn) : Completion Val :=
  match f with
  | FnOpenModal | FnCloseModal => Normal VUndef
  | FnUser _ _ result => result
  end.

(** The same for [v()], where [v] need not be a function. *)
Definition val_flag (v : Val) (b : bool) : bool :=
  match v with
  | VFn f => fn_flag f b
  | _ => b
  end.

Definition val_trace (site : Site) (v : Val) : list Obs :=
  match v with
  | VFn f => fn_trace site f
  | _ => []
  end.

Definition val_result (v : Val) : Completion Val :=
  match v with
  | VFn f => fn_result f
  | _ => Throw "TypeError: not a function"
  end.

(** The report the host leaves when a handler ends with [r]. *)
Definition uncaught {A} (r : Completion A) : list Obs :=
  match r with
  | Normal _ => []
  | Throw e => [Uncaught e]
  end.

(** [w'] is [w] after some calls of the closures: only the cell and the
    trace may differ. *)
Definition touched (w w' : World) : Prop :=
  ∃ b obs, w' = touch b obs w.

(** ** The invariant of the host *)

(** The document holds the [handleEscape] of the last effect run when that
    run saw [isOpen], and nothing otherwise. *)
Definition wired (w : World) : Prop :=
  match st_modal w with
  | Some m =>
      st_listeners w = (if m_deps m then [m_handler m] else [])
      ∧ l_closeModal (m_handler m) = FnCloseModal
  | None => st_listeners w = []
  end.

(** The effect has run for the current value of the cell. *)
Definition effect_current (w : World) : Prop :=
  ∀ m, st_modal w = Some m → m_deps m = st_isOpen w.

(** Every suspended click waits for a promise that has not settled, to
    call the provider's [closeModal]. *)
Definition parked_ok (w : World) : Prop :=
  Forall (λ e, e.2 = FnCloseModal ∧ st_settled w !! e.1 = None) (st_parked w).

Definition consistent (w : World) : Prop :=
  wired w ∧ effect_current w ∧ parked_ok w.

(** The listeners the document should hold, read off the state. *)
Definition listeners_for (w : World) : list Listener :=
  match st_modal w with
  | Some m => if st_isOpen w then [m_handler m] else []
  | None => []
  end.

(** ** Open and close events *)

(** Does the caller's function call [closeModal] itself? *)
Definition calls_closeModal (v : Val) : bool :=
  match v with
  | VFn FnCloseModal => true
  | VFn (FnUser _ body _) => existsb (λ c, negb (flag_of c)) body
  | _ => false
  end.

(** An open event: an explicit [openModal()], or a click on a trigger
    whose own [onClick] does not close the modal again. *)
Definition opens (ev : Event) : bool :=
  match ev with
  | EvCall CallOpenModal => true
  | EvClickTrigger props => negb (calls_closeModal (get "onClick" props))
  | _ => false
  end.

(** A close event: an explicit [closeModal()], or the escape key when a
    [Modal] is mounted to hear it. *)
Definition closes (mounted : bool) (ev : Event) : bool :=
  match ev with
  | EvCall CallCloseModal => true
  | EvKeydown key => mounted && String.eqb key "Escape"
  | _ => false
  end.

(** The events of the open/close protocol: calls of the two closures,
    clicks on triggers whose [onClick] does not close the modal again,
    and keys. *)
Definition protocol (ev : Event) : bool :=
  match ev with
  | EvCall _ | EvKeydown _ => true
  | EvClickTrigger props => negb (calls_closeModal (get "onClick" props))
  | _ => false
  end.

Definition modal_mounted (w : World) : bool :=
  match st_modal w with
  | Some _ => true
  | None => false
  end.

(** The cell after a protocol event, as the open and close events
    dictate. *)
Definition flag_after (mounted : bool) (b : bool) (ev : Event) : bool :=
  if opens ev then true else if closes mounted ev then false else b.

(** The world in which the provider and a [<Modal>] have mounted. *)
Definition mounted_modal (props : gmap string Val) : World :=
  step mounted_provider (EvRenderModal props).

(** An event that does not settle the promise [p]. *)
Definition settles (p : nat) (ev : Event) : bool :=
  match ev with
  | EvSettle q _ => Nat.eqb q p
  | _ => false
  end.

(** The value that ends up as [onClick] of the backdrop: the one computed
    from [onClickOutside], unless the spread props carry an [onClick] of
    their own, which [ModalProps] does not allow. *)
Definition backdrop_onClick (props : gmap string Val) : Val :=
  match props !! "onClick" with
  | Some v => v
  | None =>
      if truthy (get "onClickOutside" props)
      then get "onClickOutside" props
      else VFn FnCloseModal
  end.

(** [w'] has the same mounted modal, document and closure counter as [w]. *)
Definition same_host (w w' : World) : Prop :=
  st_modal w' = st_modal w
  ∧ st_listeners w' = st_listeners w
  ∧ st_next w' = st_next w.

(** ** The cell and the trace *)

(** What a line of the trace says about the cell: a call of [openModal]
    wrote [true], a call of [closeModal] wrote [false], any other line
    wrote nothing. *)
Definition obs_flag (b : bool) (o : Obs) : bool :=
  match o with
  | Invoked _ COpenModal => true
  | Invoked _ CCloseModal => false
  | _ => b
  end.

(** The cell as the trace tells it, from the initial value on. *)
Definition trace_flag (t : list Obs) : bool :=
  foldl obs_flag ModalProvider_initial t.

(** [w'] comes after [w]: its trace extends that of [w], and its cell is
    what the added lines say. *)
Definition follows (w w' : World) : Prop :=
  ∃ obs, st_trace w' = st_trace w ++ obs
       ∧ st_isOpen w' = foldl obs_flag (st_isOpen w) obs.

(** * Lemmas *)

Lemma get_Some k (o : gmap string Val) v : o !! k = Some v → get k o = v.
Proof. unfold get. by intros ->. Qed.

Lemma get_None k (o : gmap string Val) : o !! k = None → get k o = VUndef.
Proof. unfold get. by intros ->. Qed.

Lemma touch_id w : touch (st_isOpen w) [] w = w.
Proof. destruct w; unfold touch; simpl. by rewrite app_nil_r. Qed.

Lemma touch_touch b1 o1 b2 o2 w :
  touch b2 o2 (touch b1 o1 w) = touch b2 (o1 ++ o2) w.
Proof. unfold touch; simpl. by rewrite app_assoc. Qed.

Lemma observe_touch o w : observe o w = touch (st_isOpen w) [o] w.
Proof. done. Qed.

Lemma run_cmd_touch site c w :
  run_cmd site c w = (Normal tt, touch (flag_of c) [Invoked site (callee_of c)] w).
Proof. by destruct c. Qed.

Lemma run_body_touch site body w :
  run_body site body w
  = (Normal tt, touch (body_flag (st_isOpen w) body) (body_trace site body) w).
Proof.
  revert w. induction body as [|c body IH]; intros w.
  - simpl. by rewrite touch_id.
  - cbn [run_body]. unfold mbind, M_bind, bind.
    rewrite run_cmd_touch, IH, touch_touch. done.
Qed.

Lemma call_fn_touch site f w :
  call_fn site f w
  = (fn_result f, touch (fn_flag f (st_isOpen w)) (fn_trace site f) w).
Proof.
  destruct f as [| |name body result]; [done..|].
  unfold call_fn, mbind, M_bind, bind, modify.
  rewrite run_body_touch, observe_touch, touch_touch.
  by destruct result.
Qed.

Lemma call_touch site v w :
  call site v w
  = (val_result v, touch (val_flag v (st_isOpen w)) (val_trace site v) w).
Proof.
  destruct v; simpl; try (unfold throw; by rewrite touch_id).
  apply call_fn_touch.
Qed.

Lemma observe_uncaught {A} (r : Completion A) (w' : World) :
  match r with
  | Normal _ => w'
  | Throw e => observe (Uncaught e) w'
  end = touch (st_isOpen w') (uncaught r) w'.
Proof. destruct r; simpl; [by rewrite touch_id | done]. Qed.

Lemma run_handler_call site v w :
  run_handler (call site v ;; mret tt) w
  = touch (val_flag v (st_isOpen w))
      (val_trace site v ++ uncaught (val_result v)) w.
Proof.
  unfold run_handler, mbind, M_bind, bind. rewrite call_touch.
  destruct (val_result v); simpl.
  - by rewrite app_nil_r.
  - by rewrite observe_touch, touch_touch.
Qed.

Lemma run_handler_call_fn site f w :
  run_handler (call_fn site f ;; mret tt) w
  = touch (fn_flag f (st_isOpen w))
      (fn_trace site f ++ uncaught (fn_result f)) w.
Proof. apply (run_handler_call site (VFn f)). Qed.

Lemma run_async_call_fn site f w :
  run_async (call_fn site f) w
  = touch (fn_flag f (st_isOpen w))
      (fn_trace site f ++
       match fn_result f with Normal _ => [] | Throw _ => [Rejected] end) w.
Proof.
  unfold run_async. rewrite call_fn_touch.
  destruct (fn_result f); simpl.
  - by rewrite app_nil_r.
  - by rewrite observe_touch, touch_touch.
Qed.

(** [Modal.Trigger]'s [handleClick], run by React with the provider's
    [openModal]. *)
Lemma Trigger_handleClick_touch v w :
  run_handler (Trigger_handleClick FnOpenModal v) w
  = if truthy v
    then touch (val_flag v true)
           (Invoked ByTrigger COpenModal ::
            val_trace ByTrigger v ++ uncaught (val_result v)) w
    else touch true [Invoked ByTrigger COpenModal] w.
Proof.
  unfold Trigger_handleClick, run_handler, mbind, M_bind, bind.
  rewrite call_fn_touch. simpl.
  destruct (truthy v); [|done].
  rewrite call_touch. destruct (val_result v); simpl.
  - by rewrite touch_touch, app_nil_r.
  - by rewrite observe_touch, !touch_touch.
Qed.

(** ** What each click runs *)

Lemma handle_click_action props w :
  handle (EvClickAction props) w
  = Action_handleClick FnCloseModal (get "onClick" props) w.
Proof.
  unfold handle, click_on, Modal_Action, enclosing_of, useModal; simpl.
  rewrite lookup_union_r.
  - by rewrite lookup_singleton_eq.
  - rewrite lookup_fmap, lookup_delete_ne, lookup_delete_eq; done.
Qed.

Lemma handle_click_close props w :
  handle (EvClickClose props) w
  = Action_handleClick FnCloseModal (VFn FnCloseModal) w.
Proof.
  change (handle (EvClickClose props) w)
    with (handle (EvClickAction (<["children" := get "children" props]>
                                   (<["onClick" := VFn FnCloseModal]> props))) w).
  rewrite handle_click_action. unfold get.
  by rewrite lookup_insert_ne, lookup_insert_eq.
Qed.

Lemma handle_click_trigger props w :
  handle (EvClickTrigger props) w
  = run_handler (Trigger_handleClick FnOpenModal (get "onClick" props)) w.
Proof.
  unfold handle, click_on, Modal_Trigger, enclosing_of, useModal; simpl.
  destruct (truthy (get "asChild" props)); simpl.
  - by rewrite lookup_insert_ne, lookup_singleton_eq.
  - by rewrite lookup_singleton_eq.
Qed.

Lemma Modal_rendered s outer props :
  Modal (ModalProvider s :: outer) props
  = Normal (NElem "AnimatePresence" ∅
      [ if s then
          NElem "motion.div"
            ((AVal <$> delete "children" (delete "onClickOutside" props)) ∪
             <["onClick" := AVal (if truthy (get "onClickOutside" props)
                                  then get "onClickOutside" props
                                  else VFn FnCloseModal)]>
               {["className" := AVal (VStr backdrop_className)]})
            [ NElem "motion.div"
                (<["onClick" := AClosure StopPropagation]>
                   {["className" := AVal (VStr panel_className)]})
                (nodes_of (get "children" props)) ]
        else NEmpty ]).
Proof. done. Qed.

Lemma backdrop_onClick_lookup props :
  ((AVal <$> delete "children" (delete "onClickOutside" props)) ∪
   <["onClick" := AVal (if truthy (get "onClickOutside" props)
                        then get "onClickOutside" props
                        else VFn FnCloseModal)]>
     {["className" := AVal (VStr backdrop_className)]}) !! "onClick"
  = Some (AVal (backdrop_onClick props)).
Proof.
  unfold backdrop_onClick. rewrite lookup_union, lookup_fmap.
  rewrite !lookup_delete_ne by done. rewrite lookup_insert_eq.
  by destruct (props !! "onClick").
Qed.

Lemma handle_click_backdrop m w :
  st_modal w = Some m →
  handle EvClickBackdrop w
  = if st_isOpen w
    then run_handler (call ByBackdrop (backdrop_onClick (m_props m)) ;; mret tt) w
    else w.
Proof.
  intros Hm. unfold handle, enclosing_of. rewrite Hm, Modal_rendered.
  destruct (st_isOpen w); [|done].
  cbn [layer_of bubble]. by rewrite backdrop_onClick_lookup.
Qed.

Lemma handle_click_panel w : handle EvClickPanel w = w.
Proof.
  unfold handle, enclosing_of. destruct (st_modal w) as [m|]; [|done].
  rewrite Modal_rendered. destruct (st_isOpen w); [|done].
  cbn [layer_of panel_of bubble]. by rewrite lookup_insert_eq.
Qed.

(** ** [Modal.Action]'s [handleClick], case by case *)

Lemma action_click_no_handler v w :
  truthy v = false →
  Action_handleClick FnCloseModal v w
  = touch false [Invoked ByAction CCloseModal] w.
Proof. intros Hv. unfold Action_handleClick. by rewrite Hv. Qed.

Lemma action_click_throws f e w :
  fn_result f = Throw e →
  Action_handleClick FnCloseModal (VFn f) w
  = touch (fn_flag f (st_isOpen w)) (fn_trace ByAction f ++ [Rejected]) w.
Proof.
  intros Hf. unfold Action_handleClick; simpl.
  rewrite call_fn_touch, Hf. by rewrite observe_touch, touch_touch.
Qed.

Lemma action_click_promise f p w :
  fn_result f = Normal (VPromise p) →
  Action_handleClick FnCloseModal (VFn f) w
  = let w' := touch (fn_flag f (st_isOpen w)) (fn_trace ByAction f) w in
    match st_settled w !! p with
    | Some true => touch false [Invoked ByAction CCloseModal] w'
    | Some false => touch (fn_flag f (st_isOpen w)) [Rejected] w'
    | None => set_parked (st_parked w ++ [(p, FnCloseModal)]) w'
    end.
Proof.
  intros Hf. unfold Action_handleClick; simpl.
  rewrite call_fn_touch, Hf. unfold await; simpl.
  by destruct (st_settled w !! p) as [[]|].
Qed.

Lemma action_click_value f r w :
  fn_result f = Normal r →
  (∀ p, r ≠ VPromise p) →
  Action_handleClick FnCloseModal (VFn f) w
  = touch false (fn_trace ByAction f ++ [Invoked ByAction CCloseModal]) w.
Proof.
  intros Hf Hr. unfold Action_handleClick; simpl.
  rewrite call_fn_touch, Hf. unfold await, Action_handleClick_resume.
  destruct r as [| | |p| |];
    [| | |by destruct (Hr p)| |]; by rewrite run_async_call_fn, touch_touch.
Qed.

(** Whatever the handler is, the click either only touches the world, or
    touches it and suspends on a pending promise. *)
Lemma action_click_shape v w :
  touched w (Action_handleClick FnCloseModal v w)
  ∨ ∃ b obs p, st_settled w !! p = None
      ∧ Action_handleClick FnCloseModal v w
        = set_parked (st_parked w ++ [(p, FnCloseModal)]) (touch b obs w).
Proof.
  destruct (truthy v) eqn:Hv.
  2: { left. rewrite action_click_no_handler by done. by eexists _, _. }
  unfold Action_handleClick. rewrite Hv, call_touch.
  destruct (val_result v) as [r|e].
  2: { left. rewrite observe_touch, touch_touch. by eexists _, _. }
  unfold await, Action_handleClick_resume.
  destruct r as [| | |p| |];
    try (left; rewrite run_async_call_fn, touch_touch; by eexists _, _).
  cbn [st_settled touch].
  destruct (st_settled w !! p) as [[]|] eqn:Hp.
  - left. rewrite run_async_call_fn, touch_touch. by eexists _, _.
  - left. rewrite observe_touch, touch_touch. by eexists _, _.
  - right. by eexists _, _, p.
Qed.

(** ** The commit leaves the cell, the promises and the trace alone *)

Lemma run_effect_fields props w :
  st_isOpen (run_effect props w) = st_isOpen w
  ∧ st_trace (run_effect props w) = st_trace w
  ∧ st_parked (run_effect props w) = st_parked w
  ∧ st_settled (run_effect props w) = st_settled w.
Proof.
  unfold run_effect, enclosing_of, useModal, Modal_effect; simpl.
  by destruct (st_isOpen w) eqn:E; rewrite ?E.
Qed.

Lemma commit_fields w :
  st_isOpen (commit w) = st_isOpen w
  ∧ st_trace (commit w) = st_trace w
  ∧ st_parked (commit w) = st_parked w
  ∧ st_settled (commit w) = st_settled w.
Proof.
  unfold commit. destruct (st_modal w) as [m|]; [|done].
  destruct (Bool.eqb _ _); [done|].
  apply (run_effect_fields _ (Modal_effect_cleanup (m_handler m) w)).
Qed.

Lemma commit_isOpen w : st_isOpen (commit w) = st_isOpen w.
Proof. apply commit_fields. Qed.

Lemma commit_trace w : st_trace (commit w) = st_trace w.
Proof. apply commit_fields. Qed.

Lemma commit_parked w : st_parked (commit w) = st_parked w.
Proof. apply commit_fields. Qed.

Lemma commit_settled w : st_settled (commit w) = st_settled w.
Proof. apply commit_fields. Qed.

Lemma step_isOpen w ev : st_isOpen (step w ev) = st_isOpen (handle ev w).
Proof. apply commit_isOpen. Qed.

Lemma step_trace w ev : st_trace (step w ev) = st_trace (handle ev w).
Proof. apply commit_trace. Qed.

Lemma step_parked w ev : st_parked (step w ev) = st_parked (handle ev w).
Proof. apply commit_parked. Qed.

Lemma step_settled w ev : st_settled (step w ev) = st_settled (handle ev w).
Proof. apply commit_settled. Qed.

(** ** Touching *)

Lemma touched_refl w : touched w w.
Proof. exists (st_isOpen w), []. by rewrite touch_id. Qed.

Lemma touched_trans w1 w2 w3 : touched w1 w2 → touched w2 w3 → touched w1 w3.
Proof.
  intros (b1 & o1 & ->) (b2 & o2 & ->). rewrite touch_touch. by eexists _, _.
Qed.

Lemma touched_foldl {A} (f : World → A → World) (l : list A) w :
  (∀ w' x, touched w' (f w' x)) → touched w (foldl f w l).
Proof.
  intros Hf. revert w. induction l as [|x l IH]; intros w; simpl.
  - apply touched_refl.
  - eapply touched_trans; [apply Hf | apply IH].
Qed.

Lemma touched_run_handler_call site v w :
  touched w (run_handler (call site v ;; mret tt) w).
Proof. rewrite run_handler_call. by eexists _, _. Qed.

Lemma touched_handleEscape l key w :
  touched w (run_handler (handleEscape l key) w).
Proof.
  unfold handleEscape. destruct (String.eqb key "Escape").
  - rewrite run_handler_call_fn. by eexists _, _.
  - apply touched_refl.
Qed.

Lemma touched_dispatch_keydown key w : touched w (dispatch_keydown key w).
Proof.
  unfold dispatch_keydown. apply touched_foldl.
  intros w' l. apply touched_handleEscape.
Qed.

Lemma touched_trigger props w : touched w (handle (EvClickTrigger props) w).
Proof.
  rewrite handle_click_trigger, Trigger_handleClick_touch.
  destruct (truthy _); by eexists _, _.
Qed.

Lemma touched_backdrop w : touched w (handle EvClickBackdrop w).
Proof.
  destruct (st_modal w) as [m|] eqn:Hm.
  - rewrite (handle_click_backdrop m) by done.
    destruct (st_isOpen w); [apply touched_run_handler_call | apply touched_refl].
  - unfold handle. rewrite Hm. apply touched_refl.
Qed.

Lemma touched_call c w : touched w (handle (EvCall c) w).
Proof.
  unfold handle, run_handler. rewrite run_cmd_touch. by eexists _, _.
Qed.

Lemma touched_resume_parked fulfilled f w :
  touched w (resume_parked fulfilled f w).
Proof.
  unfold resume_parked, Action_handleClick_resume. destruct fulfilled.
  - rewrite run_async_call_fn. by eexists _, _.
  - rewrite observe_touch. by eexists _, _.
Qed.

(** Settling a pending promise: the waiting clicks leave the list, the
    promise is recorded, and the world is touched by what they resume. *)
Lemma settle_pending p fulfilled w :
  st_settled w !! p = None →
  touched
    (set_parked (filter (λ e, e.1 ≠ p) (st_parked w))
       (set_settled (<[p := fulfilled]> (st_settled w)) w))
    (settle p fulfilled w).
Proof.
  intros Hp. unfold settle. rewrite Hp. apply touched_foldl.
  intros w' e. apply touched_resume_parked.
Qed.

Lemma settle_settled p fulfilled w :
  is_Some (st_settled w !! p) → settle p fulfilled w = w.
Proof. intros [b Hb]. unfold settle. by rewrite Hb. Qed.

(** ** The host part of the world changes only on mount, unmount, commit *)

Lemma same_host_refl w : same_host w w.
Proof. done. Qed.

Lemma same_host_touched w w' : touched w w' → same_host w w'.
Proof. by intros (b & obs & ->). Qed.

Lemma same_host_action v w :
  same_host w (Action_handleClick FnCloseModal v w).
Proof.
  destruct (action_click_shape v w) as [H|(b & obs & p & _ & ->)].
  - by apply same_host_touched.
  - done.
Qed.

Lemma same_host_settle p fulfilled w : same_host w (settle p fulfilled w).
Proof.
  destruct (st_settled w !! p) as [b|] eqn:Hp.
  - rewrite settle_settled by eauto. done.
  - destruct (settle_pending p fulfilled w Hp) as (b & obs & ->). done.
Qed.

Lemma same_host_handle ev w :
  match ev with
  | EvRenderModal _ | EvUnmountModal => True
  | _ => same_host w (handle ev w)
  end.
Proof.
  destruct ev; try done.
  - apply same_host_touched, touched_dispatch_keydown.
  - apply same_host_touched, touched_backdrop.
  - by rewrite handle_click_panel.
  - apply same_host_touched, touched_trigger.
  - rewrite handle_click_action. apply same_host_action.
  - rewrite handle_click_close. apply same_host_action.
  - apply same_host_touched, touched_call.
  - apply same_host_settle.
Qed.

(** ** The invariant *)

Lemma wired_same_host w w' : same_host w w' → wired w → wired w'.
Proof. unfold wired. by intros (-> & -> & _). Qed.

Lemma removeEventListener_own (l : Listener) (b : bool) :
  removeEventListener l (if b then [l] else []) = [].
Proof.
  destruct b; [|done]. unfold removeEventListener.
  rewrite filter_cons_False by (simpl; auto). done.
Qed.

(** Running the effect on an empty document: the new [handleEscape] is the
    only listener when the modal is open; when it is closed the body asks
    to remove a function nobody registered. *)
Lemma wired_run_effect props w :
  st_listeners w = [] → wired (run_effect props w).
Proof.
  intros Hl. unfold wired, run_effect, enclosing_of, useModal, Modal_effect.
  simpl. rewrite Hl. by destruct (st_isOpen w).
Qed.

Lemma effect_current_run_effect props w : effect_current (run_effect props w).
Proof.
  intros m. unfold run_effect, enclosing_of, useModal, Modal_effect; simpl.
  destruct (st_isOpen w) eqn:E; simpl; intros [= <-]; simpl; by rewrite ?E.
Qed.

Lemma wired_cleanup m w :
  st_modal w = Some m → wired w →
  st_listeners (Modal_effect_cleanup (m_handler m) w) = [].
Proof.
  unfold wired. intros -> [Hl _]. simpl. rewrite Hl.
  apply removeEventListener_own.
Qed.

Lemma wired_handle ev w : wired w → wired (handle ev w).
Proof.
  intros Hw. pose proof (same_host_handle ev w) as Hsame.
  destruct ev; try (by eapply wired_same_host).
  - (* the parent renders <Modal> *)
    unfold handle. destruct (st_modal w) as [m|] eqn:Hm.
    + unfold wired in *. rewrite Hm in Hw. done.
    + apply wired_run_effect. unfold wired in Hw. by rewrite Hm in Hw.
  - (* the parent drops it *)
    unfold handle. destruct (st_modal w) as [m|] eqn:Hm; [|done].
    unfold wired; simpl. by apply (wired_cleanup m w).
Qed.

Lemma wired_commit w : wired w → wired (commit w) ∧ effect_current (commit w).
Proof.
  intros Hw. unfold commit. destruct (st_modal w) as [m|] eqn:Hm.
  - destruct (Bool.eqb (m_deps m) (st_isOpen w)) eqn:Hd.
    + split; [done|]. intros m'. rewrite Hm. intros [= <-].
      by apply Bool.eqb_prop.
    + split; [|apply effect_current_run_effect].
      apply wired_run_effect. by apply wired_cleanup.
  - split; [done|]. intros m'. by rewrite Hm.
Qed.

Lemma parked_ok_touched w w' : touched w w' → parked_ok w → parked_ok w'.
Proof. by intros (b & obs & ->). Qed.

Lemma parked_ok_action v w :
  parked_ok w → parked_ok (Action_handleClick FnCloseModal v w).
Proof.
  intros Hw. destruct (action_click_shape v w) as [H|(b & obs & p & Hp & ->)].
  - by eapply parked_ok_touched.
  - unfold parked_ok; simpl. apply Forall_app. split; [done|].
    by constructor.
Qed.

Lemma parked_ok_settle p fulfilled w :
  parked_ok w → parked_ok (settle p fulfilled w).
Proof.
  intros Hw. destruct (st_settled w !! p) as [b|] eqn:Hp.
  - by rewrite settle_settled by eauto.
  - eapply parked_ok_touched; [by apply settle_pending|].
    unfold parked_ok in *; simpl.
    apply Forall_forall. intros e [He Hin]%list_elem_of_filter.
    rewrite Forall_forall in Hw. destruct (Hw e Hin) as [Hf Hs].
    split; [done|]. by rewrite lookup_insert_ne.
Qed.

Lemma parked_ok_handle ev w : parked_ok w → parked_ok (handle ev w).
Proof.
  intros Hw. destruct ev.
  - unfold handle. destruct (st_modal w); [done|].
    unfold parked_ok.
    destruct (run_effect_fields props w) as (_ & _ & -> & ->). done.
  - unfold handle. by destruct (st_modal w).
  - eapply parked_ok_touched; [apply touched_dispatch_keydown | done].
  - eapply parked_ok_touched; [apply touched_backdrop | done].
  - by rewrite handle_click_panel.
  - eapply parked_ok_touched; [apply touched_trigger | done].
  - rewrite handle_click_action. by apply parked_ok_action.
  - rewrite handle_click_close. by apply parked_ok_action.
  - eapply parked_ok_touched; [apply touched_call | done].
  - by apply parked_ok_settle.
Qed.

Lemma parked_ok_commit w : parked_ok w → parked_ok (commit w).
Proof.
  unfold parked_ok. by rewrite commit_parked, commit_settled.
Qed.

Lemma consistent_provider : consistent mounted_provider.
Proof. repeat split; [by intros ? | constructor]. Qed.

Lemma consistent_step w ev : consistent w → consistent (step w ev).
Proof.
  intros (Hw & _ & Hp). unfold step.
  destruct (wired_commit (handle ev w)) as [H1 H2];
    [by apply wired_handle|].
  repeat split; [done..|]. by apply parked_ok_commit, parked_ok_handle.
Qed.

Lemma consistent_run w evs : consistent w → consistent (run w evs).
Proof.
  revert w. induction evs as [|ev evs IH]; intros w Hw; [done|].
  apply IH. by apply consistent_step.
Qed.

Lemma consistent_listeners w : consistent w → st_listeners w = listeners_for w.
Proof.
  intros (Hw & Hc & _). unfold wired, listeners_for in *.
  destruct (st_modal w) as [m|] eqn:Hm; [|done].
  destruct Hw as [-> _]. by rewrite (Hc m Hm).
Qed.

(** * The claims *)

(** C1.  [useModal] outside every [ModalProvider] throws the error
    "useModal must be used within a ModalProvider"; under a provider it
    returns the value of the nearest one and throws nothing.  The four
    components that call it fail the same way outside a provider. *)
Theorem useModal_requires_provider :
  useModal [] = Throw "useModal must be used within a ModalProvider"
  ∧ (∀ context outer, useModal (context :: outer) = Normal context)
  ∧ (∀ props,
       Modal [] props = Throw "useModal must be used within a ModalProvider"
       ∧ Modal_Trigger [] props
         = Throw "useModal must be used within a ModalProvider"
       ∧ Modal_Action [] props
         = Throw "useModal must be used within a ModalProvider"
       ∧ Modal_Close [] props
         = Throw "useModal must be used within a ModalProvider").
Proof. done. Qed.











(** C8.  The provider's state is one boolean, handed out with two
    closures.  [openModal] writes [true] and [closeModal] writes [false],
    whatever the cell held; so [closeModal] after [openModal] leaves the
    modal closed, and each closure applied to the opposite state flips
    it.  Apart from the trace nothing else in the world changes. *)
Theorem provider_flag_and_closures site w :
  let context := ModalProvider (st_isOpen w) in
  let opened := (call_fn site (openModal context) w).2 in
  let closed := (call_fn site (closeModal context) w).2 in
  isOpen context = st_isOpen w
  ∧ ModalProvider_initial = false
  ∧ opened = touch true [Invoked site COpenModal] w
  ∧ closed = touch false [Invoked site CCloseModal] w
  ∧ st_isOpen (call_fn site (closeModal context) opened).2 = false
  ∧ (if st_isOpen w then st_isOpen closed else st_isOpen opened)
    = negb (st_isOpen w).
Proof.
  cbv zeta. cbn [ModalProvider openModal closeModal isOpen].
  rewrite !call_fn_touch. simpl. by destruct (st_isOpen w).
Qed.

(** C10.  [Modal.Close] writes [onClick={closeModal}] after the spread of
    its props, so an [onClick] given by the caller never reaches
    [Modal.Action]: the button's handler holds the provider's
    [closeModal], the click does the same with and without the caller's
    handler, and the only calls it makes are calls of [closeModal] (the
    one awaited as [onClick], then the one that follows). *)
Theorem close_discards_caller_onClick w props handler :
  let given := <["onClick" := handler]> props in
  (∃ attrs children,
     Modal_Close (enclosing_of w) given = Normal (NElem "Button" attrs children)
     ∧ attrs !! "onClick"
       = Some (AClosure (ActionHandleClick FnCloseModal (VFn FnCloseModal))))
  ∧ step w (EvClickClose given) = step w (EvClickClose (delete "onClick" props))
  ∧ st_trace (step w (EvClickClose given))
    = st_trace w ++ [Invoked ByAction CCloseModal; Invoked ByAction CCloseModal]
  ∧ st_isOpen (step w (EvClickClose given)) = false.
Proof.
  simpl. split; [|split; [|split]].
  - unfold Modal_Close, Modal_Action, enclosing_of, useModal; simpl.
    eexists _, _. split; [done|].
    rewrite lookup_union_r.
    + rewrite lookup_singleton_eq. unfold get.
      by rewrite lookup_insert_ne, lookup_insert_eq.
    + by rewrite lookup_fmap, lookup_delete_ne, lookup_delete_eq.
  - unfold step. by rewrite !handle_click_close.
  - unfold step. rewrite commit_trace, handle_click_close.
    by rewrite (action_click_value FnCloseModal VUndef).
  - unfold step. rewrite commit_isOpen, handle_click_close.
    by rewrite (action_click_value FnCloseModal VUndef).
Qed.

Lemma fn_trace_no_default f :
  f ≠ FnCloseModal →
  Invoked ByBackdrop CCloseModal
  ∉ fn_trace ByBackdrop f ++ uncaught (fn_result f).
Proof.
  intros Hf. destruct f as [| |name body result]; [|done|].
  - simpl. intros H%list_elem_of_singleton. done.
  - simpl. intros [H|[H|H]%elem_of_app]%elem_of_cons; [done| |].
    + unfold body_trace in H. apply list_elem_of_fmap in H as (c & Hc & _).
      done.
    + destruct result; simpl in H; [by apply not_elem_of_nil in H|].
      by apply list_elem_of_singleton in H.
Qed.

(** C4.  A click on the backdrop of an open modal, whose props are props
    a [ModalProps] allows (no [onClick] among them): without
    [onClickOutside] React calls the provider's [closeModal] and the modal
    closes; with a function as [onClickOutside] React calls that function
    and nothing else, so the default [closeModal] call is not made and the
    cell holds whatever the function itself left there. *)
Theorem backdrop_click_default_or_custom w m :
  st_modal w = Some m →
  st_isOpen w = true →
  m_props m !! "onClick" = None →
  let w' := step w EvClickBackdrop in
  (m_props m !! "onClickOutside" = None →
     st_isOpen w' = false
     ∧ st_trace w' = st_trace w ++ [Invoked ByBackdrop CCloseModal])
  ∧ (∀ f,
       m_props m !! "onClickOutside" = Some (VFn f) →
       st_isOpen w' = fn_flag f true
       ∧ st_trace w'
         = st_trace w ++ fn_trace ByBackdrop f ++ uncaught (fn_result f)
       ∧ (f ≠ FnCloseModal →
          Invoked ByBackdrop CCloseModal
          ∉ fn_trace ByBackdrop f ++ uncaught (fn_result f))).
Proof.
  intros Hm Hopen Hno w'. subst w'.
  rewrite step_isOpen, step_trace.
  rewrite (handle_click_backdrop m) by done.
  rewrite Hopen, run_handler_call. unfold backdrop_onClick, get.
  rewrite Hno. split.
  - intros ->. simpl. done.
  - intros f ->. simpl. rewrite Hopen.
    split; [done|]. split; [done|]. apply fn_trace_no_default.
Qed.

Lemma backdrop_click_default_or_custom_witness :
  let w := run mounted_provider
             [EvRenderModal {["onClickOutside" := VFn (FnUser "keep" [] (Normal VUndef))]};
              EvCall CallOpenModal] in
  st_isOpen (step w EvClickBackdrop) = true
  ∧ st_trace (step w EvClickBackdrop)
    = [Invoked ByApp COpenModal; Invoked ByBackdrop (CUser "keep")].
Proof.
  intros w.
  destruct (backdrop_click_default_or_custom w
              {| m_props := {["onClickOutside" := VFn (FnUser "keep" [] (Normal VUndef))]};
                 m_deps := true;
                 m_handler := HandleEscape 1 FnCloseModal |}
              eq_refl eq_refl eq_refl) as [_ Hcustom].
  destruct (Hcustom (FnUser "keep" [] (Normal VUndef)) eq_refl)
    as (H1 & H2 & _).
  split; [exact H1 | exact H2].
Defined.

(** The escape key on a consistent world with a mounted modal. *)
Lemma keydown_escape_open w m :
  consistent w → st_modal w = Some m → st_isOpen w = true →
  handle (EvKeydown "Escape") w = touch false [Invoked ByEscape CCloseModal] w.
Proof.
  intros Hc Hm Hopen. pose proof (consistent_listeners w Hc) as Hl.
  destruct Hc as (Hw & _ & _). unfold wired in Hw. rewrite Hm in Hw.
  destruct Hw as [_ Hclose].
  unfold listeners_for in Hl. rewrite Hm, Hopen in Hl.
  unfold handle, dispatch_keydown. rewrite Hl. cbn [foldl].
  unfold handleEscape. cbn [String.eqb Ascii.eqb Bool.eqb].
  rewrite run_handler_call_fn, Hclose. simpl. done.
Qed.

Lemma keydown_closed w key :
  consistent w → st_isOpen w = false → step w (EvKeydown key) = w.
Proof.
  intros Hc Hclosed. pose proof (consistent_listeners w Hc) as Hl.
  unfold listeners_for in Hl. rewrite Hclosed in Hl.
  assert (st_listeners w = []) as Hnil by (by destruct (st_modal w)).
  unfold step, handle, dispatch_keydown. rewrite Hnil. cbn [foldl].
  destruct Hc as (_ & Hcur & _). unfold commit.
  destruct (st_modal w) as [m|] eqn:Hm; [|done].
  rewrite (Hcur m Hm). by rewrite Bool.eqb_reflx.
Qed.

(** C3.  In every state the modal can reach from the mount of its provider,
    with the [Modal] component mounted: the escape key pressed while
    [isOpen] holds makes [handleEscape] call [closeModal], after which
    [isOpen] is false and the listener is gone; pressed while [isOpen] is
    false it finds no listener on the document and changes nothing. *)
Theorem escape_closes_only_while_open evs :
  let w := run mounted_provider evs in
  let w' := step w (EvKeydown "Escape") in
  is_Some (st_modal w) →
  if st_isOpen w
  then st_isOpen w' = false
       ∧ st_trace w' = st_trace w ++ [Invoked ByEscape CCloseModal]
       ∧ st_listeners w' = []
  else st_listeners w = [] ∧ w' = w.
Proof.
  intros w w' [m Hm].
  assert (consistent w) as Hc by apply consistent_run, consistent_provider.
  destruct (st_isOpen w) eqn:Hopen.
  - subst w'. unfold step.
    rewrite commit_isOpen, commit_trace, (keydown_escape_open w m) by done.
    split; [done|]. split; [done|].
    pose proof (consistent_step w (EvKeydown "Escape") Hc) as Hc'.
    rewrite <- (keydown_escape_open w m) by done.
    fold (step w (EvKeydown "Escape")).
    rewrite (consistent_listeners _ Hc'). unfold listeners_for.
    replace (st_isOpen (step w (EvKeydown "Escape"))) with false.
    + by case_match.
    + unfold step. by rewrite commit_isOpen, (keydown_escape_open w m).
  - split; [|by apply keydown_closed].
    rewrite (consistent_listeners _ Hc). unfold listeners_for.
    rewrite Hopen. by destruct (st_modal w).
Qed.

Lemma escape_closes_only_while_open_witness :
  let w := run mounted_provider [EvRenderModal ∅; EvCall CallOpenModal] in
  st_isOpen (step w (EvKeydown "Escape")) = false
  ∧ st_trace (step w (EvKeydown "Escape"))
    = [Invoked ByApp COpenModal; Invoked ByEscape CCloseModal]
  ∧ st_listeners (step w (EvKeydown "Escape")) = [].
Proof.
  exact (escape_closes_only_while_open
           [EvRenderModal ∅; EvCall CallOpenModal]
           (ex_intro _ _ eq_refl)).
Defined.

(** C6.  In every reachable state the document holds the escape listener
    exactly when the [Modal] is mounted and [isOpen] is true, and then it
    holds the one function the pending cleanup removes; when the [Modal]
    unmounts, also while open, the cleanup leaves no listener behind. *)
Theorem escape_listener_attached_iff_visible evs :
  let w := run mounted_provider evs in
  let gone := step w EvUnmountModal in
  st_listeners w
  = match st_modal w with
    | Some m => if st_isOpen w then [m_handler m] else []
    | None => []
    end
  ∧ st_modal gone = None
  ∧ st_listeners gone = []
  ∧ st_isOpen gone = st_isOpen w.
Proof.
  intros w gone.
  assert (consistent w) as Hc by apply consistent_run, consistent_provider.
  split; [by apply consistent_listeners|].
  assert (st_modal gone = None) as Hgone.
  { subst gone. unfold step, handle.
    destruct (st_modal w) as [m|] eqn:Hm; unfold commit; simpl; [done|].
    by rewrite Hm. }
  split; [done|]. split.
  - rewrite (consistent_listeners gone) by by apply consistent_step.
    unfold listeners_for. by rewrite Hgone.
  - subst gone. unfold step. rewrite commit_isOpen. unfold handle.
    by destruct (st_modal w).
Qed.

(** ** Open and close events *)

Lemma commit_keeps_modal w : is_Some (st_modal w) → is_Some (st_modal (commit w)).
Proof.
  intros [m Hm]. unfold commit. rewrite Hm.
  destruct (Bool.eqb _ _); [by rewrite Hm|].
  unfold run_effect, enclosing_of, useModal, Modal_effect; simpl. eauto.
Qed.

Lemma step_modal_mounted w ev :
  protocol ev = true → modal_mounted (step w ev) = modal_mounted w.
Proof.
  intros Hev. unfold modal_mounted.
  assert (st_modal (handle ev w) = st_modal w) as Hh.
  { pose proof (same_host_handle ev w) as Hsame.
    destruct ev; try done; by destruct Hsame as (-> & _). }
  unfold step, commit. rewrite Hh.
  destruct (st_modal w) as [m|] eqn:Hm; [|by rewrite ?Hh, ?Hm].
  destruct (Bool.eqb _ _); [by rewrite ?Hh, ?Hm|].
  unfold run_effect, enclosing_of, useModal, Modal_effect; simpl. done.
Qed.

Lemma body_flag_no_close body :
  existsb (λ c, negb (flag_of c)) body = false → body_flag true body = true.
Proof.
  unfold body_flag.
  cut (∀ b, b = true → existsb (λ c, negb (flag_of c)) body = false →
            foldl (λ _ c, flag_of c) b body = true); [by eauto|].
  induction body as [|c body IH]; intros b Hb; simpl; [done|].
  intros [Hc Hrest]%orb_false_elim. apply IH; [|done].
  by apply negb_false_iff.
Qed.

Lemma trigger_opens props w :
  calls_closeModal (get "onClick" props) = false →
  st_isOpen (handle (EvClickTrigger props) w) = true.
Proof.
  intros Hq. rewrite handle_click_trigger, Trigger_handleClick_touch.
  destruct (truthy _); [|done].
  destruct (get "onClick" props) as [| | | |[| |name body result]|]; try done.
  simpl in *. by apply body_flag_no_close.
Qed.

Lemma keydown_other key w :
  String.eqb key "Escape" = false → handle (EvKeydown key) w = w.
Proof.
  intros Hkey. unfold handle, dispatch_keydown.
  generalize (st_listeners w). intros ls. revert w.
  induction ls as [|l ls IH]; intros w; [done|].
  cbn [foldl]. unfold handleEscape at 2. rewrite Hkey. apply IH.
Qed.

Lemma keydown_unmounted key w :
  consistent w → st_modal w = None → handle (EvKeydown key) w = w.
Proof.
  intros Hc Hm. pose proof (consistent_listeners w Hc) as Hl.
  unfold listeners_for in Hl. rewrite Hm in Hl.
  unfold handle, dispatch_keydown. by rewrite Hl.
Qed.

(** What a protocol event leaves in the cell of a consistent world. *)
Lemma step_flag w ev :
  consistent w → protocol ev = true →
  st_isOpen (step w ev) = flag_after (modal_mounted w) (st_isOpen w) ev.
Proof.
  intros Hc Hev. rewrite step_isOpen. unfold flag_after, modal_mounted.
  destruct ev as [| |key| | |props| | |c|]; try done.
  - (* a key *)
    cbn [opens closes].
    destruct (String.eqb key "Escape") eqn:Hkey.
    2: { rewrite keydown_other by done. by rewrite andb_false_r. }
    apply String.eqb_eq in Hkey as ->.
    destruct (st_modal w) as [m|] eqn:Hm.
    2: { by rewrite keydown_unmounted. }
    destruct (st_isOpen w) eqn:Hopen.
    + by rewrite (keydown_escape_open w m).
    + rewrite <- step_isOpen. by rewrite keydown_closed.
  - (* a trigger *)
    simpl in *. rewrite Hev.
    apply trigger_opens. by apply negb_true_iff.
  - (* an explicit call *)
    unfold handle, run_handler. rewrite run_cmd_touch. by destruct c.
Qed.

Lemma run_flag w evs :
  consistent w →
  Forall (λ ev, protocol ev = true) evs →
  st_isOpen (run w evs) = foldl (flag_after (modal_mounted w)) (st_isOpen w) evs.
Proof.
  revert w. induction evs as [|ev evs IH]; intros w Hc Hevs; [done|].
  apply Forall_cons in Hevs as [Hev Hevs]. simpl.
  rewrite IH; [|by apply consistent_step|done].
  by rewrite step_flag, step_modal_mounted.
Qed.

(** The flag is up after a run of events exactly when an open event
    occurred that no close event followed. *)
Lemma last_event_decides mounted (evs : list Event) :
  foldl (flag_after mounted) false evs = true
  ↔ ∃ before ev after,
      evs = before ++ ev :: after ∧ opens ev = true
      ∧ Forall (λ e, closes mounted e = false) after.
Proof.
  induction evs as [|e evs IH] using rev_ind.
  - split; [done|]. intros (before & ev & after & H & _).
    by destruct before.
  - rewrite foldl_app. cbn [foldl]. unfold flag_after at 1. split.
    + destruct (opens e) eqn:He.
      { intros _. exists evs, e, []. by repeat split. }
      destruct (closes mounted e) eqn:Hc; [done|].
      intros (before & ev & after & -> & Hev & Hafter)%IH.
      exists before, ev, (after ++ [e]). split; [by rewrite <- app_assoc|].
      split; [done|]. apply Forall_app. split; [done|]. by constructor.
    + intros (before & ev & after & Heq & Hev & Hafter).
      destruct after as [|x after _] using rev_ind.
      * apply app_inj_tail in Heq as [_ ->]. by rewrite Hev.
      * change (before ++ ev :: after ++ [x])
          with (before ++ (ev :: after) ++ [x]) in Heq.
        rewrite app_assoc in Heq. apply app_inj_tail in Heq as [-> ->].
        apply Forall_app in Hafter as [Hafter Hx].
        apply Forall_inv in Hx. simpl in Hx. rewrite Hx.
        destruct (opens x); [done|]. apply IH. by exists before, ev, after.
Qed.

Lemma consistent_mounted_modal props :
  consistent (mounted_modal props)
  ∧ modal_mounted (mounted_modal props) = true
  ∧ st_isOpen (mounted_modal props) = false.
Proof. split; [apply consistent_step, consistent_provider | done]. Qed.

(** C2.  Take a provider, with or without a [Modal] mounted under it, and
    any sequence of calls of [openModal] and [closeModal], clicks on
    triggers and keys.  [isOpen] is true after the sequence exactly when
    the sequence contains an open event (explicit [openModal()], click on
    a trigger) that no close event (explicit [closeModal()], escape key
    with the [Modal] there to show) follows; so it is false as long as no
    open event has occurred, and false again from the first close event
    after an open one.  Every prefix of such a sequence is such a
    sequence, so this describes the flag at each moment. *)
Theorem isOpen_between_open_and_close (mounted : bool) props evs :
  Forall (λ ev, protocol ev = true) evs →
  let start := if mounted then mounted_modal props else mounted_provider in
  let w := run start evs in
  st_isOpen start = false
  ∧ (st_isOpen w = true
     ↔ ∃ before ev after,
         evs = before ++ ev :: after ∧ opens ev = true
         ∧ Forall (λ e, closes mounted e = false) after)
  ∧ (Forall (λ e, opens e = false) evs → st_isOpen w = false).
Proof.
  intros Hevs start w.
  assert (consistent start ∧ modal_mounted start = mounted
          ∧ st_isOpen start = false) as (Hc & Hm & Hclosed).
  { subst start. destruct mounted.
    - apply consistent_mounted_modal.
    - split; [apply consistent_provider | done]. }
  split; [done|]. subst w. rewrite run_flag, Hclosed, Hm by done. split.
  - by apply last_event_decides.
  - intros Hno. apply not_true_is_false.
    intros (before & ev & after & -> & Hev & _)%last_event_decides.
    apply Forall_app in Hno as [_ Hno]. apply Forall_inv in Hno.
    simpl in Hno. congruence.
Qed.

Lemma isOpen_between_open_and_close_witness :
  let evs := [EvClickTrigger ∅; EvKeydown "Escape"; EvCall CallOpenModal;
              EvCall CallCloseModal; EvClickTrigger ∅; EvKeydown "Enter"] in
  st_isOpen (run (mounted_modal ∅) evs) = true
  ∧ st_isOpen (run (mounted_modal ∅) (evs ++ [EvKeydown "Escape"])) = false.
Proof.
  intros evs. split.
  - apply (isOpen_between_open_and_close true ∅ evs).
    + repeat constructor.
    + exists [EvClickTrigger ∅; EvKeydown "Escape"; EvCall CallOpenModal;
              EvCall CallCloseModal], (EvClickTrigger ∅), [EvKeydown "Enter"].
      repeat constructor.
  - apply not_true_is_false. intros Hopen.
    apply (isOpen_between_open_and_close true ∅ (evs ++ [EvKeydown "Escape"]))
      in Hopen as (before & ev & after & Heq & Hev & Hafter);
      [|repeat constructor].
    destruct after as [|x after _] using rev_ind.
    + apply (app_inj_tail (evs) before) in Heq as [_ <-]. done.
    + change (before ++ ev :: after ++ [x])
        with (before ++ (ev :: after) ++ [x]) in Heq.
      rewrite app_assoc in Heq. apply app_inj_tail in Heq as [_ <-].
      apply Forall_app in Hafter as [_ Hx]. apply Forall_inv in Hx. done.
Defined.

(** ** Suspended clicks *)

(** A click suspended on [p] stays suspended, and [p] stays pending,
    through every event that does not settle [p]. *)
Lemma pending_touched p f w w' :
  touched w w' →
  st_settled w !! p = None ∧ (p, f) ∈ st_parked w →
  st_settled w' !! p = None ∧ (p, f) ∈ st_parked w'.
Proof. by intros (b & obs & ->). Qed.

Lemma pending_action p f v w :
  st_settled w !! p = None ∧ (p, f) ∈ st_parked w →
  st_settled (Action_handleClick FnCloseModal v w) !! p = None
  ∧ (p, f) ∈ st_parked (Action_handleClick FnCloseModal v w).
Proof.
  intros [Hs Hp].
  destruct (action_click_shape v w) as [H|(b & obs & q & _ & ->)].
  - by eapply pending_touched.
  - simpl. split; [done|]. apply elem_of_app. by left.
Qed.

Lemma pending_handle p f ev w :
  settles p ev = false →
  st_settled w !! p = None ∧ (p, f) ∈ st_parked w →
  st_settled (handle ev w) !! p = None ∧ (p, f) ∈ st_parked (handle ev w).
Proof.
  intros Hev Hw. destruct ev as [props| |key| | |props|props|props|c|q ok].
  - unfold handle. destruct (st_modal w); [done|].
    by destruct (run_effect_fields props w) as (_ & _ & -> & ->).
  - unfold handle. by destruct (st_modal w).
  - eapply pending_touched; [apply touched_dispatch_keydown | done].
  - eapply pending_touched; [apply touched_backdrop | done].
  - by rewrite handle_click_panel.
  - eapply pending_touched; [apply touched_trigger | done].
  - rewrite handle_click_action. by apply pending_action.
  - rewrite handle_click_close. by apply pending_action.
  - eapply pending_touched; [apply touched_call | done].
  - simpl in Hev. apply Nat.eqb_neq in Hev. unfold handle.
    destruct (st_settled w !! q) as [b|] eqn:Hq.
    + by rewrite settle_settled by eauto.
    + eapply pending_touched; [by apply settle_pending|].
      destruct Hw as [Hs Hp]. simpl. split.
      * by rewrite lookup_insert_ne.
      * apply list_elem_of_filter. split; [simpl; congruence | done].
Qed.

Lemma pending_run p f evs w :
  Forall (λ ev, settles p ev = false) evs →
  st_settled w !! p = None ∧ (p, f) ∈ st_parked w →
  st_settled (run w evs) !! p = None ∧ (p, f) ∈ st_parked (run w evs).
Proof.
  revert w. induction evs as [|ev evs IH]; intros w Hevs Hw; [done|].
  apply Forall_cons in Hevs as [Hev Hevs]. simpl. apply IH; [done|].
  unfold step. rewrite commit_settled, commit_parked.
  by apply pending_handle.
Qed.

(** Resuming a list of clicks that all hold the provider's [closeModal]. *)
Lemma resume_fulfilled (l : list (nat * Fn)) w :
  Forall (λ e, e.2 = FnCloseModal) l →
  foldl (λ w' e, resume_parked true e.2 w') w l
  = touch (match l with [] => st_isOpen w | _ => false end)
      (replicate (length l) (Invoked ByAction CCloseModal)) w.
Proof.
  revert w. induction l as [|e l IH]; intros w Hl.
  - simpl. by rewrite touch_id.
  - apply Forall_cons in Hl as [He Hl]. cbn [foldl]. rewrite IH by done.
    unfold resume_parked, Action_handleClick_resume.
    rewrite run_async_call_fn, He, touch_touch. simpl. by destruct l.
Qed.

Lemma resume_rejected (l : list (nat * Fn)) w :
  foldl (λ w' e, resume_parked false e.2 w') w l
  = touch (st_isOpen w) (replicate (length l) Rejected) w.
Proof.
  revert w. induction l as [|e l IH]; intros w.
  - simpl. by rewrite touch_id.
  - cbn [foldl]. rewrite IH. unfold resume_parked.
    by rewrite observe_touch, touch_touch.
Qed.

(** When the awaited promise is fulfilled, every click suspended on it
    calls [closeModal]. *)
Lemma settle_fulfilled p w :
  parked_ok w → st_settled w !! p = None → (p, FnCloseModal) ∈ st_parked w →
  ∃ n, st_isOpen (settle p true w) = false
     ∧ st_trace (settle p true w)
       = st_trace w ++ replicate (S n) (Invoked ByAction CCloseModal)
     ∧ ∀ f, (p, f) ∉ st_parked (settle p true w).
Proof.
  intros Hok Hs Hp. unfold settle. rewrite Hs.
  assert ((p, FnCloseModal) ∈ filter (λ e, e.1 = p) (st_parked w)) as Hin
    by (by apply list_elem_of_filter).
  rewrite resume_fulfilled.
  2: { apply Forall_forall. intros e [_ He]%list_elem_of_filter.
       unfold parked_ok in Hok. rewrite Forall_forall in Hok.
       by destruct (Hok e He). }
  destruct (filter (λ e, e.1 = p) (st_parked w)) as [|e l];
    [by apply not_elem_of_nil in Hin|].
  exists (length l). simpl. split; [done|]. split; [done|].
  intros f [Hne _]%list_elem_of_filter. done.
Qed.

(** When it is rejected, nobody calls anything: the suspended clicks end. *)
Lemma settle_rejected p w :
  ∃ n, st_isOpen (settle p false w) = st_isOpen w
     ∧ st_trace (settle p false w) = st_trace w ++ replicate n Rejected.
Proof.
  unfold settle. destruct (st_settled w !! p).
  - exists 0. simpl. by rewrite app_nil_r.
  - rewrite resume_rejected. by eexists.
Qed.

Lemma settle_rejected_pending p f w :
  st_settled w !! p = None → (p, f) ∈ st_parked w →
  ∃ n, st_isOpen (settle p false w) = st_isOpen w
     ∧ st_trace (settle p false w) = st_trace w ++ replicate (S n) Rejected
     ∧ ∀ g, (p, g) ∉ st_parked (settle p false w).
Proof.
  intros Hs Hp. unfold settle. rewrite Hs, resume_rejected.
  assert ((p, f) ∈ filter (λ e, e.1 = p) (st_parked w)) as Hin
    by (by apply list_elem_of_filter).
  destruct (filter (λ e, e.1 = p) (st_parked w)) as [|e l];
    [by apply not_elem_of_nil in Hin|].
  exists (length l). simpl. split; [done|]. split; [done|].
  intros g [Hne _]%list_elem_of_filter. done.
Qed.

Lemma action_ran_no_close name body :
  Invoked ByAction CCloseModal
  ∉ Invoked ByAction (CUser name) :: body_trace (ByUser name) body ++ [Rejected].
Proof.
  intros [H|[H|H]%elem_of_app]%elem_of_cons; [done| |].
  - unfold body_trace in H. apply list_elem_of_fmap in H as (c & Hc & _).
    done.
  - by apply list_elem_of_singleton in H.
Qed.

(** C5.  A click on a [Modal.Action] whose [onClick] returns a pending
    promise, in any state reachable from the mount of the provider: within
    the click only the handler runs, [closeModal] is not called and the
    click is suspended on the promise; it stays suspended through every
    event that does not settle the promise; when the promise is fulfilled
    [closeModal] is called and the modal closes.  Without an [onClick]
    the click calls [closeModal] at once. *)
Theorem action_awaits_pending_handler evs0 props name body p evs :
  let w := run mounted_provider evs0 in
  let w1 := step w (EvClickAction props) in
  let w2 := run w1 evs in
  let w3 := step w2 (EvSettle p true) in
  props !! "onClick" = Some (VFn (FnUser name body (Normal (VPromise p)))) →
  st_settled w !! p = None →
  Forall (λ ev, settles p ev = false) evs →
  (st_trace w1
   = st_trace w ++ Invoked ByAction (CUser name) :: body_trace (ByUser name) body
   ∧ st_isOpen w1 = body_flag (st_isOpen w) body
   ∧ st_parked w1 = st_parked w ++ [(p, FnCloseModal)])
  ∧ (st_settled w2 !! p = None ∧ (p, FnCloseModal) ∈ st_parked w2)
  ∧ (∃ n, st_isOpen w3 = false
        ∧ st_trace w3
          = st_trace w2 ++ replicate (S n) (Invoked ByAction CCloseModal)
        ∧ ∀ f, (p, f) ∉ st_parked w3)
  ∧ (∀ bare, bare !! "onClick" = None →
       st_isOpen (step w (EvClickAction bare)) = false
       ∧ st_trace (step w (EvClickAction bare))
         = st_trace w ++ [Invoked ByAction CCloseModal]
       ∧ st_parked (step w (EvClickAction bare)) = st_parked w).
Proof.
  intros w w1 w2 w3 Hprops Hpending Hevs.
  assert (consistent w) as Hc by apply consistent_run, consistent_provider.
  assert (handle (EvClickAction props) w
          = set_parked (st_parked w ++ [(p, FnCloseModal)])
              (touch (body_flag (st_isOpen w) body)
                 (Invoked ByAction (CUser name) :: body_trace (ByUser name) body)
                 w)) as Hclick.
  { rewrite handle_click_action, (get_Some _ _ _ Hprops).
    rewrite (action_click_promise _ p) by done. cbv zeta.
    by rewrite Hpending. }
  assert (st_settled w2 !! p = None ∧ (p, FnCloseModal) ∈ st_parked w2) as Hw2.
  { apply pending_run; [done|]. subst w1. unfold step.
    rewrite commit_settled, commit_parked, Hclick. simpl.
    split; [done|]. apply elem_of_app. right. by apply list_elem_of_singleton. }
  split; [|split; [done|split]].
  - subst w1. unfold step.
    by rewrite commit_trace, commit_isOpen, commit_parked, Hclick.
  - assert (consistent w2) as Hc2
        by apply consistent_run, consistent_step, Hc.
    destruct Hw2 as [Hs2 Hp2]. destruct Hc2 as (_ & _ & Hok2).
    destruct (settle_fulfilled p w2 Hok2 Hs2 Hp2) as (n & H1 & H2 & H3).
    exists n. subst w3. unfold step.
    by rewrite commit_trace, commit_isOpen, commit_parked.
  - intros bare Hbare. unfold step.
    rewrite commit_trace, commit_isOpen, commit_parked, handle_click_action.
    rewrite (get_None _ _ Hbare). by rewrite action_click_no_handler.
Qed.

Lemma action_awaits_pending_handler_witness :
  let save := VFn (FnUser "save" [] (Normal (VPromise 7))) in
  let w := run mounted_provider [EvRenderModal ∅; EvCall CallOpenModal] in
  let w1 := step w (EvClickAction {["onClick" := save]}) in
  let w2 := run w1 [EvKeydown "a"; EvClickPanel] in
  (st_trace w1 = [Invoked ByApp COpenModal; Invoked ByAction (CUser "save")]
   ∧ st_isOpen w1 = true)
  ∧ (7, FnCloseModal) ∈ st_parked w2
  ∧ st_isOpen (step w2 (EvSettle 7 true)) = false.
Proof.
  intros save w w1 w2.
  destruct (action_awaits_pending_handler
              [EvRenderModal ∅; EvCall CallOpenModal]
              {["onClick" := save]} "save" [] 7 [EvKeydown "a"; EvClickPanel])
    as ((H1 & H2 & _) & (_ & H3) & (n & H4 & _) & _).
  { reflexivity. }
  { reflexivity. }
  { repeat constructor. }
  split; [split; [exact H1 | exact H2]|]. split; [exact H3 | exact H4].
Defined.

(** C9.  A click on a [Modal.Action] whose [onClick] fails.  If the
    handler throws, or returns a promise that is already rejected, the
    click ends with the handler: the [closeModal] call of the action is
    not made, and the cell holds what the handler's own calls left there,
    which is its old value when the handler does not call the closures
    itself.  If the handler returns a pending promise the click is
    suspended without calling [closeModal], and when the promise is
    rejected the click ends, again without the call and without a change
    of the cell. *)
Theorem failed_action_does_not_close w props name body result :
  props !! "onClick" = Some (VFn (FnUser name body result)) →
  let w1 := step w (EvClickAction props) in
  let ran := Invoked ByAction (CUser name) :: body_trace (ByUser name) body in
  (∀ e, result = Throw e →
     st_trace w1 = st_trace w ++ ran ++ [Rejected]
     ∧ st_isOpen w1 = body_flag (st_isOpen w) body
     ∧ st_parked w1 = st_parked w)
  ∧ (∀ p, result = Normal (VPromise p) → st_settled w !! p = Some false →
       st_trace w1 = st_trace w ++ ran ++ [Rejected]
       ∧ st_isOpen w1 = body_flag (st_isOpen w) body
       ∧ st_parked w1 = st_parked w)
  ∧ (∀ p, result = Normal (VPromise p) → st_settled w !! p = None →
       st_trace w1 = st_trace w ++ ran
       ∧ st_isOpen w1 = body_flag (st_isOpen w) body
       ∧ ∀ evs, Forall (λ ev, settles p ev = false) evs →
           let w2 := run w1 evs in
           let w3 := step w2 (EvSettle p false) in
           ∃ n, st_isOpen w3 = st_isOpen w2
              ∧ st_trace w3 = st_trace w2 ++ replicate (S n) Rejected
              ∧ ∀ f, (p, f) ∉ st_parked w3)
  ∧ (Invoked ByAction CCloseModal ∉ ran ++ [Rejected])
  ∧ body_flag (st_isOpen w) [] = st_isOpen w.
Proof.
  intros Hprops w1 ran.
  assert (handle (EvClickAction props) w
          = Action_handleClick FnCloseModal (VFn (FnUser name body result)) w)
    as Hclick by (by rewrite handle_click_action, (get_Some _ _ _ Hprops)).
  split; [|split; [|split; [|split; [apply action_ran_no_close | done]]]].
  - intros e ->. subst w1.
    rewrite step_trace, step_isOpen, step_parked, Hclick.
    by rewrite (action_click_throws _ e).
  - intros p -> Hp. subst w1.
    rewrite step_trace, step_isOpen, step_parked, Hclick.
    rewrite (action_click_promise _ p) by done.
    cbv zeta. rewrite Hp. simpl. by rewrite <- app_assoc.
  - intros p -> Hp.
    rewrite (action_click_promise _ p) in Hclick by done.
    cbv zeta in Hclick. rewrite Hp in Hclick.
    split; [by subst w1; rewrite step_trace, Hclick|].
    split; [by subst w1; rewrite step_isOpen, Hclick|].
    intros evs Hevs w2 w3.
    assert (st_settled w2 !! p = None ∧ (p, FnCloseModal) ∈ st_parked w2)
      as [Hs2 Hp2].
    { apply pending_run; [done|]. subst w1.
      rewrite step_settled, step_parked, Hclick. simpl.
      split; [done|]. apply elem_of_app. right.
      by apply list_elem_of_singleton. }
    destruct (settle_rejected_pending p _ w2 Hs2 Hp2) as (n & H1 & H2 & H3).
    exists n. subst w3. by rewrite step_trace, step_isOpen, step_parked.
Qed.

Lemma failed_action_does_not_close_witness :
  let submit := VFn (FnUser "submit" [] (Throw "network down")) in
  let w := run mounted_provider [EvRenderModal ∅; EvCall CallOpenModal] in
  let w1 := step w (EvClickAction {["onClick" := submit]}) in
  st_trace w1
  = [Invoked ByApp COpenModal; Invoked ByAction (CUser "submit"); Rejected]
  ∧ st_isOpen w1 = true.
Proof.
  intros submit w w1.
  destruct (failed_action_does_not_close w {["onClick" := submit]}
              "submit" [] (Throw "network down")) as (Hthrow & _).
  { reflexivity. }
  destruct (Hthrow "network down" eq_refl) as (H1 & H2 & _).
  split; [exact H1 | exact H2].
Defined.

(** * Further properties *)

(** ** The cell follows the trace *)

Lemma follows_refl w : follows w w.
Proof. exists []. by rewrite app_nil_r. Qed.

Lemma follows_same w w' :
  st_trace w' = st_trace w → st_isOpen w' = st_isOpen w → follows w w'.
Proof. intros Ht Hb. exists []. by rewrite app_nil_r. Qed.

Lemma follows_trans w1 w2 w3 : follows w1 w2 → follows w2 w3 → follows w1 w3.
Proof.
  intros (o1 & Ht1 & Hb1) (o2 & Ht2 & Hb2). exists (o1 ++ o2).
  by rewrite Ht2, Ht1, Hb2, Hb1, foldl_app, app_assoc.
Qed.

Lemma follows_foldl {A} (f : World → A → World) (l : list A) w :
  (∀ w' x, follows w' (f w' x)) → follows w (foldl f w l).
Proof.
  intros Hf. revert w. induction l as [|x l IH]; intros w; simpl.
  - apply follows_refl.
  - eapply follows_trans; [apply Hf | apply IH].
Qed.

Lemma body_flag_trace site b body :
  foldl obs_flag b (body_trace site body) = body_flag b body.
Proof.
  unfold body_trace, body_flag. revert b.
  induction body as [|c body IH]; intros b; [done|].
  simpl. rewrite <- IH. by destruct c.
Qed.

Lemma fn_flag_trace site b f :
  foldl obs_flag b (fn_trace site f) = fn_flag f b.
Proof. destruct f; [done..|]. simpl. apply body_flag_trace. Qed.

Lemma follows_touch_fn site f (extra : list Obs) w :
  Forall (λ o, ∀ b, obs_flag b o = b) extra →
  follows w (touch (fn_flag f (st_isOpen w)) (fn_trace site f ++ extra) w).
Proof.
  intros Hextra. exists (fn_trace site f ++ extra). split; [done|].
  rewrite foldl_app, fn_flag_trace. simpl.
  generalize (fn_flag f (st_isOpen w)).
  induction Hextra as [|o extra Ho _ IH]; intros b; [done|].
  simpl. by rewrite Ho.
Qed.

Lemma follows_call_fn site f w : follows w (call_fn site f w).2.
Proof.
  rewrite call_fn_touch. simpl.
  rewrite <- (app_nil_r (fn_trace site f)). by apply follows_touch_fn.
Qed.

Lemma follows_call site v w : follows w (call site v w).2.
Proof.
  destruct v; try apply follows_refl. apply follows_call_fn.
Qed.

Lemma follows_observe o w :
  (∀ b, obs_flag b o = b) → follows w (observe o w).
Proof. intros Ho. exists [o]. simpl. by rewrite Ho. Qed.

(** Reporting the end of a handler adds a line that says nothing about
    the cell. *)
Lemma follows_run_handler {A} (m : M A) w :
  follows w (m w).2 → follows w (run_handler m w).
Proof.
  intros Hm. unfold run_handler. destruct (m w) as [[a|e] w']; [done|].
  eapply follows_trans; [exact Hm|]. by apply follows_observe.
Qed.

Lemma follows_run_async {A} (m : M A) w :
  follows w (m w).2 → follows w (run_async m w).
Proof.
  intros Hm. unfold run_async. destruct (m w) as [[a|e] w']; [done|].
  eapply follows_trans; [exact Hm|]. by apply follows_observe.
Qed.

Lemma follows_bind {A B} (m : M A) (k : A → M B) w :
  follows w (m w).2 → (∀ a w', follows w' (k a w').2) →
  follows w ((m ≫= k) w).2.
Proof.
  intros Hm Hk. unfold mbind, M_bind, bind.
  destruct (m w) as [[a|e] w']; [|done].
  eapply follows_trans; [exact Hm | apply Hk].
Qed.

Lemma follows_handleEscape l key w : follows w (handleEscape l key w).2.
Proof.
  unfold handleEscape. destruct (String.eqb key "Escape").
  - apply follows_bind; [apply follows_call_fn|]. intros; apply follows_refl.
  - apply follows_refl.
Qed.

Lemma follows_Trigger_handleClick f v w :
  follows w (Trigger_handleClick f v w).2.
Proof.
  unfold Trigger_handleClick.
  apply follows_bind; [apply follows_call_fn|]. intros _ w'.
  destruct (truthy v); [|apply follows_refl].
  apply follows_bind; [apply follows_call|]. intros; apply follows_refl.
Qed.

Lemma follows_resume f w :
  follows w (run_async (Action_handleClick_resume f) w).
Proof. apply follows_run_async, follows_call_fn. Qed.

Lemma follows_await v f w : follows w (await v f w).
Proof.
  unfold await. destruct v; try apply follows_resume.
  destruct (st_settled w !! p) as [[]|].
  - apply follows_resume.
  - by apply follows_observe.
  - by apply follows_same.
Qed.

Lemma follows_Action_handleClick f v w :
  follows w (Action_handleClick f v w).
Proof.
  unfold Action_handleClick. destruct (truthy v); [|apply follows_resume].
  pose proof (follows_call ByAction v w) as Hcall.
  destruct (call ByAction v w) as [[r|e] w'].
  - eapply follows_trans; [exact Hcall | apply follows_await].
  - eapply follows_trans; [exact Hcall|]. by apply follows_observe.
Qed.

Lemma follows_invoke site a w : follows w (invoke site a w).2.
Proof.
  destruct a as [v|[|f v|f v]]; simpl.
  - apply follows_bind; [apply follows_call|]. intros; apply follows_refl.
  - apply follows_refl.
  - apply follows_Trigger_handleClick.
  - apply follows_Action_handleClick.
Qed.

Lemma follows_bubble site path w : follows w (bubble site path w).
Proof.
  revert w. induction path as [|n up IH]; intros w; [apply follows_refl|].
  destruct n as [| |tag attrs children]; simpl; try apply IH.
  destruct (attrs !! "onClick") as [a|]; [|apply IH].
  pose proof (follows_run_handler (invoke site a) w (follows_invoke site a w)).
  destruct (stops a); [done|]. eapply follows_trans; [done | apply IH].
Qed.

Lemma follows_settle p fulfilled w : follows w (settle p fulfilled w).
Proof.
  unfold settle. destruct (st_settled w !! p); [apply follows_refl|].
  eapply follows_trans; [|apply follows_foldl].
  - by apply follows_same.
  - intros w' e. unfold resume_parked. destruct fulfilled.
    + apply follows_resume.
    + by apply follows_observe.
Qed.

Lemma follows_handle ev w : follows w (handle ev w).
Proof.
  destruct ev; unfold handle, click_on.
  - destruct (run_effect_fields props w) as (Hb & Ht & _).
    by destruct (st_modal w); apply follows_same.
  - by destruct (st_modal w); apply follows_same.
  - unfold dispatch_keydown. apply follows_foldl. intros w' l.
    apply follows_run_handler, follows_handleEscape.
  - repeat case_match; first [apply follows_bubble | apply follows_refl].
  - repeat case_match; first [apply follows_bubble | apply follows_refl].
  - case_match; [apply follows_bubble | apply follows_refl].
  - case_match; [apply follows_bubble | apply follows_refl].
  - case_match; [apply follows_bubble | apply follows_refl].
  - apply follows_run_handler. rewrite run_cmd_touch.
    exists [Invoked ByApp (callee_of c)]. by destruct c.
  - apply follows_settle.
Qed.

Lemma follows_step w ev : follows w (step w ev).
Proof.
  destruct (follows_handle ev w) as (obs & Ht & Hb). exists obs.
  by rewrite step_trace, step_isOpen.
Qed.

Lemma follows_run w evs : follows w (run w evs).
Proof.
  revert w. induction evs as [|ev evs IH]; intros w; [apply follows_refl|].
  eapply follows_trans; [apply follows_step | apply IH].
Qed.

(** X1.  Only calls of the provider's two closures write the cell.  After any
    sequence of events whatsoever (mounts, unmounts, keys, clicks on any
    component, settling promises), [isOpen] is what the last call of
    [openModal] or [closeModal] in the trace wrote, and [false] if there
    was none. *)
Theorem isOpen_is_last_closure_call evs :
  let w := run mounted_provider evs in
  st_isOpen w = trace_flag (st_trace w).
Proof.
  intros w. destruct (follows_run mounted_provider evs) as (obs & Ht & Hb).
  subst w. rewrite Hb, Ht. done.
Qed.

(** ** Events that leave the world alone *)

Lemma commit_current w : effect_current w → commit w = w.
Proof.
  intros Hcur. unfold commit. destruct (st_modal w) as [m|] eqn:Hm; [|done].
  by rewrite (Hcur m Hm), Bool.eqb_reflx.
Qed.

Lemma consistent_reachable evs : consistent (run mounted_provider evs).
Proof. apply consistent_run, consistent_provider. Qed.

(** X2.  [handleEscape] looks at the key (lines 185-189).  In every reachable
    state a key other than "Escape" changes nothing at all; "Escape"
    leaves [isOpen] false when a [Modal] is mounted and as it was when
    none is.  So no key ever opens the modal. *)
Theorem keydown_only_escape_closes evs key :
  let w := run mounted_provider evs in
  let w' := step w (EvKeydown key) in
  if String.eqb key "Escape"
  then st_isOpen w' = (if modal_mounted w then false else st_isOpen w)
  else w' = w.
Proof.
  intros w w'. pose proof (consistent_reachable evs) as Hc. fold w in Hc.
  destruct (String.eqb key "Escape") eqn:Hkey.
  - subst w'. rewrite step_flag by done. unfold flag_after. simpl.
    rewrite Hkey. by destruct (modal_mounted w).
  - subst w'. unfold step. rewrite keydown_other by done.
    apply commit_current, Hc.
Qed.

(** X3.  The panel stops the click (lines 232-234): in every reachable state a
    click on the panel changes nothing, whatever [onClickOutside] is; the
    backdrop's handler is not called. *)
Theorem panel_click_changes_nothing evs :
  let w := run mounted_provider evs in
  step w EvClickPanel = w.
Proof.
  intros w. unfold step. rewrite handle_click_panel.
  apply commit_current, (consistent_reachable evs).
Qed.

(** X4.  Calling a closure that writes the value the cell already holds
    (lines 144-147): in every reachable state only the trace grows.  The
    effect does not run again, so the document keeps the listener it had
    and no second one is registered. *)
Theorem repeated_call_changes_only_trace evs c :
  let w := run mounted_provider evs in
  flag_of c = st_isOpen w →
  step w (EvCall c) = touch (st_isOpen w) [Invoked ByApp (callee_of c)] w.
Proof.
  intros w Hsame. unfold step, handle, run_handler.
  rewrite run_cmd_touch, Hsame. apply commit_current.
  intros m Hm. simpl in *.
  by apply (consistent_reachable evs).
Qed.

Lemma repeated_call_changes_only_trace_witness :
  let w := run mounted_provider [EvRenderModal ∅; EvCall CallOpenModal] in
  st_listeners (step w (EvCall CallOpenModal)) = st_listeners w
  ∧ st_next (step w (EvCall CallOpenModal)) = st_next w.
Proof.
  intros w. subst w.
  rewrite (repeated_call_changes_only_trace
             [EvRenderModal ∅; EvCall CallOpenModal] CallOpenModal eq_refl).
  split; reflexivity.
Defined.

(** X5.  Rendering the mounted [Modal] again with other props (the dependency
    list of the effect is [[isOpen, closeModal]], line 198): in every
    reachable state the new props are taken, and the cell, the listener on
    the document and the closure counter stay as they were, so the effect
    did not run again. *)
Theorem rerender_keeps_listener evs props :
  let w := run mounted_provider evs in
  let w' := step w (EvRenderModal props) in
  is_Some (st_modal w) →
  (m_props <$> st_modal w') = Some props
  ∧ st_isOpen w' = st_isOpen w
  ∧ st_listeners w' = st_listeners w
  ∧ st_next w' = st_next w.
Proof.
  intros w w' [m Hm]. pose proof (consistent_reachable evs) as Hc. fold w in Hc.
  subst w'. unfold step, handle. rewrite Hm. rewrite commit_current.
  - done.
  - intros m'. simpl. intros [= <-]. simpl. by apply Hc.
Qed.

Lemma rerender_keeps_listener_witness :
  let w := run mounted_provider [EvRenderModal ∅; EvCall CallOpenModal] in
  let props := {["onClickOutside" := VFn FnCloseModal]} in
  st_listeners (step w (EvRenderModal props)) = st_listeners w.
Proof.
  intros w props.
  destruct (rerender_keeps_listener
              [EvRenderModal ∅; EvCall CallOpenModal] props
              (ex_intro _ _ eq_refl)) as (_ & _ & H & _).
  exact H.
Defined.

(** ** The spread on the backdrop *)

(** X6.  [{...props}] is the last attribute of the backdrop (line 230).  If the
    props object of [Modal] carries an [onClick], which [ModalProps] does
    not declare but an object can hold, that function replaces the
    handler computed from [onClickOutside]: a click on the backdrop of the
    open modal calls it and nothing else, with or without an
    [onClickOutside]. *)
Theorem backdrop_spread_onClick_wins w m f :
  st_modal w = Some m →
  st_isOpen w = true →
  m_props m !! "onClick" = Some (VFn f) →
  let w' := step w EvClickBackdrop in
  st_isOpen w' = fn_flag f true
  ∧ st_trace w' = st_trace w ++ fn_trace ByBackdrop f ++ uncaught (fn_result f).
Proof.
  intros Hm Hopen Hspread w'. subst w'.
  rewrite step_isOpen, step_trace, (handle_click_backdrop m) by done.
  rewrite Hopen, run_handler_call. unfold backdrop_onClick.
  rewrite Hspread. simpl. by rewrite Hopen.
Qed.

Lemma backdrop_spread_onClick_wins_witness :
  let props := <["onClick" := VFn (FnUser "log" [] (Normal VUndef))]>
                 {["onClickOutside" := VFn (FnUser "dismiss" [] (Normal VUndef))]} in
  let w := run mounted_provider [EvRenderModal props; EvCall CallOpenModal] in
  st_isOpen (step w EvClickBackdrop) = true
  ∧ st_trace (step w EvClickBackdrop)
    = [Invoked ByApp COpenModal; Invoked ByBackdrop (CUser "log")].
Proof.
  intros props w.
  destruct (backdrop_spread_onClick_wins w
              {| m_props := props; m_deps := true;
                 m_handler := HandleEscape 1 FnCloseModal |}
              (FnUser "log" [] (Normal VUndef))) as [H1 H2].
  { reflexivity. }
  { reflexivity. }
  { reflexivity. }
  split; [exact H1 | exact H2].
Defined.

(** ** Modal.Trigger *)

(** X7.  [handleClick] of [Modal.Trigger] (lines 261-266) calls [openModal]
    first and then the caller's [onClick], if there is one.  So the
    handler runs after the open call; if it throws, the error is reported
    and the modal is open all the same; and the modal ends open unless
    the handler itself calls [closeModal]. *)
Theorem trigger_opens_then_calls_handler w props :
  let onClick := get "onClick" props in
  let w' := step w (EvClickTrigger props) in
  st_trace w'
  = st_trace w ++ Invoked ByTrigger COpenModal
      :: (if truthy onClick
          then val_trace ByTrigger onClick ++ uncaught (val_result onClick)
          else [])
  ∧ st_isOpen w' = (if truthy onClick then val_flag onClick true else true)
  ∧ (calls_closeModal onClick = false → st_isOpen w' = true).
Proof.
  intros onClick w'. subst w'.
  split; [|split].
  - rewrite step_trace, handle_click_trigger, Trigger_handleClick_touch.
    fold onClick. by destruct (truthy onClick).
  - rewrite step_isOpen, handle_click_trigger, Trigger_handleClick_touch.
    fold onClick. by destruct (truthy onClick).
  - intros Hquiet. rewrite step_isOpen. by apply trigger_opens.
Qed.

(** X8.  What [Modal.Trigger] renders (lines 254-277): a [div] with the class
    "cursor-pointer" when [asChild] is truthy and a [Button] otherwise,
    in both cases with [handleClick] as [onClick] and with the children.
    Only [children], [onClick] and [asChild] are read: no other prop of
    the caller reaches the element, and [asChild] does not change what a
    click does. *)
Theorem trigger_renders_wrapper_only w props :
  let asChild := truthy (get "asChild" props) in
  (∃ attrs,
     Modal_Trigger (enclosing_of w) props
     = Normal (NElem (if asChild then "div" else "Button") attrs
                 (nodes_of (get "children" props)))
     ∧ attrs !! "onClick"
       = Some (AClosure (TriggerHandleClick FnOpenModal (get "onClick" props)))
     ∧ attrs !! "className"
       = (if asChild then Some (AVal (VStr "cursor-pointer")) else None)
     ∧ ∀ k, k ≠ "onClick" → k ≠ "className" → attrs !! k = None)
  ∧ (∀ v, step w (EvClickTrigger (<["asChild" := v]> props))
          = step w (EvClickTrigger props)).
Proof.
  intros asChild. subst asChild. split.
  - unfold Modal_Trigger, enclosing_of, useModal; simpl.
    destruct (truthy (get "asChild" props)); eexists; (split; [done|]).
    + split; [by rewrite lookup_insert_ne, lookup_singleton_eq|].
      split; [by rewrite lookup_insert_eq|].
      intros k H1 H2. by rewrite lookup_insert_ne, lookup_singleton_ne.
    + split; [by rewrite lookup_singleton_eq|].
      split; [done|].
      intros k H1 H2. by rewrite lookup_singleton_ne.
  - intros v. unfold step. rewrite !handle_click_trigger. unfold get.
    by rewrite lookup_insert_ne.
Qed.

(** ** Modal.Action *)

(** X9.  What [Modal.Action] hands to the [Button] (lines 383-406):
    [handleClick] as [onClick], holding the caller's [onClick]; never
    [fullWidth]; and every other prop of the caller except [className]
    (which goes through [cn]) unchanged. *)
Theorem action_forwards_other_props w props :
  ∃ attrs,
    Modal_Action (enclosing_of w) props
    = Normal (NElem "Button" attrs (nodes_of (get "children" props)))
    ∧ attrs !! "onClick"
      = Some (AClosure (ActionHandleClick FnCloseModal (get "onClick" props)))
    ∧ attrs !! "fullWidth" = None
    ∧ ∀ k, k ≠ "onClick" → k ≠ "fullWidth" → k ≠ "className" →
        attrs !! k = AVal <$> props !! k.
Proof.
  unfold Modal_Action, enclosing_of, useModal; simpl. eexists. split.
  - unfold get. by rewrite !lookup_delete_ne.
  - split; [|split].
    + rewrite lookup_union_r; [by rewrite lookup_singleton_eq|].
      by rewrite lookup_fmap, lookup_delete_ne, lookup_delete_eq.
    + rewrite lookup_union, lookup_fmap, !lookup_delete_ne by done.
      by rewrite lookup_delete_eq, lookup_singleton_ne.
    + intros k H1 H2 H3.
      rewrite lookup_union, lookup_fmap, !lookup_delete_ne by done.
      rewrite lookup_singleton_ne by done. by destruct (props !! k).
Qed.

(** X10.  A handler that returns at once (lines 391-396): when [onClick]
    returns a value that is not a promise, or a promise that is already
    fulfilled, the click calls the handler, then [closeModal], and is not
    suspended; the modal is closed when the click is over. *)
Theorem action_closes_after_settled_handler w props f r :
  props !! "onClick" = Some (VFn f) →
  fn_result f = Normal r →
  match r with
  | VPromise p => st_settled w !! p = Some true
  | _ => True
  end →
  let w' := step w (EvClickAction props) in
  st_trace w' = st_trace w ++ fn_trace ByAction f ++ [Invoked ByAction CCloseModal]
  ∧ st_isOpen w' = false
  ∧ st_parked w' = st_parked w.
Proof.
  intros Hprops Hf Hr w'. subst w'.
  rewrite step_trace, step_isOpen, step_parked, handle_click_action.
  rewrite (get_Some _ _ _ Hprops).
  destruct r as [| | |p| |];
    try (by rewrite (action_click_value f _ w Hf)).
  rewrite (action_click_promise f p w Hf). cbv zeta. rewrite Hr. simpl.
  by rewrite <- app_assoc.
Qed.

Lemma action_closes_after_settled_handler_witness :
  let track := FnUser "track" [] (Normal VUndef) in
  let w := run mounted_provider [EvRenderModal ∅; EvCall CallOpenModal] in
  let w' := step w (EvClickAction {["onClick" := VFn track]}) in
  st_trace w'
  = [Invoked ByApp COpenModal; Invoked ByAction (CUser "track");
     Invoked ByAction CCloseModal]
  ∧ st_isOpen w' = false.
Proof.
  intros track w w'.
  destruct (action_closes_after_settled_handler w
              {["onClick" := VFn track]} track VUndef) as (H1 & H2 & _).
  { reflexivity. }
  { reflexivity. }
  { exact I. }
  split; [exact H1 | exact H2].
Defined.

(** ** One run of the effect *)

Lemma removeEventListener_absent h doc :
  Forall (λ l, l_id l ≠ l_id h) doc → removeEventListener h doc = doc.
Proof.
  unfold removeEventListener. induction 1 as [|l doc Hl _ IH]; [done|].
  rewrite filter_cons_True by done. by rewrite IH.
Qed.

Lemma addEventListener_absent h doc :
  Forall (λ l, l_id l ≠ l_id h) doc → addEventListener h doc = doc ++ [h].
Proof.
  intros Hdoc. unfold addEventListener.
  assert (existsb (λ l', Nat.eqb (l_id l') (l_id h)) doc = false) as ->;
    [|done].
  induction Hdoc as [|l doc Hl _ IH]; [done|].
  simpl. rewrite IH. by apply Nat.eqb_neq in Hl as ->.
Qed.

Lemma removeEventListener_added h doc :
  Forall (λ l, l_id l ≠ l_id h) doc → removeEventListener h (doc ++ [h]) = doc.
Proof.
  intros Hdoc. unfold removeEventListener. rewrite filter_app.
  fold (removeEventListener h doc). rewrite removeEventListener_absent by done.
  rewrite filter_cons_False by (simpl; auto). simpl. by rewrite app_nil_r.
Qed.

(** X11.  One run of the effect of [Modal] and its cleanup (lines 184-198), on a
    document that does not hold the new [handleEscape] yet.  With
    [isOpen] the run adds that one function at the end of the list;
    without it the run leaves the list alone, since it asks to remove a
    function that was never added.  In both cases the cleanup returned by
    the run gives back the world as it was before the run. *)
Theorem effect_then_cleanup_restores context id w :
  Forall (λ l, l_id l ≠ id) (st_listeners w) →
  let ran := Modal_effect context id w in
  ran.1 = HandleEscape id (closeModal context)
  ∧ st_listeners ran.2
    = (if isOpen context then st_listeners w ++ [ran.1] else st_listeners w)
  ∧ Modal_effect_cleanup ran.1 ran.2 = w.
Proof.
  intros Hfresh ran. subst ran. unfold Modal_effect, Modal_effect_cleanup.
  cbn [fst snd].
  set (h := HandleEscape id (closeModal context)).
  assert (Forall (λ l, l_id l ≠ l_id h) (st_listeners w)) as Hh by done.
  split; [done|]. destruct (isOpen context); cbn [st_listeners set_listeners].
  - rewrite addEventListener_absent by done. split; [done|].
    rewrite removeEventListener_added by done.
    by destruct w.
  - rewrite removeEventListener_absent by done. split; [done|].
    rewrite removeEventListener_absent by done.
    by destruct w.
Qed.

Lemma effect_then_cleanup_restores_witness :
  let w := run mounted_provider [EvRenderModal ∅; EvCall CallOpenModal] in
  let ran := Modal_effect (ModalProvider true) 2 w in
  st_listeners ran.2
  = [HandleEscape 1 FnCloseModal; HandleEscape 2 FnCloseModal]
  ∧ Modal_effect_cleanup ran.1 ran.2 = w.
Proof.
  intros w ran.
  destruct (effect_then_cleanup_restores (ModalProvider true) 2 w)
    as (_ & H1 & H2).
  { repeat constructor. simpl. lia. }
  split; [exact H1 | exact H2].
Defined.

(** ** The presentational components *)

(** X12.  [Modal.Body] (lines 285-289) writes the spread after
    [className="mb-5"]: a [className] of the caller replaces "mb-5"
    instead of being added to it, and "mb-5" is the class only when the
    caller gives none.  [children] is taken out and rendered inside; every
    other prop reaches the [div] unchanged. *)
Theorem body_className_is_replaced props :
  ∃ attrs,
    Modal_Body props = NElem "div" attrs (nodes_of (get "children" props))
    ∧ attrs !! "className"
      = Some (AVal (default (VStr "mb-5") (props !! "className")))
    ∧ attrs !! "children" = None
    ∧ ∀ k, k ≠ "children" → k ≠ "className" → attrs !! k = AVal <$> props !! k.
Proof.
  unfold Modal_Body. eexists. split; [done|]. split; [|split].
  - rewrite lookup_union, lookup_fmap, lookup_delete_ne by done.
    rewrite lookup_singleton_eq. by destruct (props !! "className").
  - rewrite lookup_union, lookup_fmap, lookup_delete_eq.
    by rewrite lookup_singleton_ne.
  - intros k H1 H2.
    rewrite lookup_union, lookup_fmap, lookup_delete_ne by done.
    rewrite lookup_singleton_ne by done. by destruct (props !! k).
Qed.

Lemma styled_attrs cn tag base props :
  ∃ attrs,
    styled cn tag base props = NElem tag attrs (nodes_of (get "children" props))
    ∧ attrs !! "className"
      = Some (AVal (VStr (cn [VStr base; get "className" props])))
    ∧ attrs !! "children" = None
    ∧ ∀ k, k ≠ "children" → k ≠ "className" → attrs !! k = AVal <$> props !! k.
Proof.
  unfold styled. eexists. split; [done|]. split; [|split].
  - rewrite lookup_union, lookup_fmap, lookup_delete_eq.
    by rewrite lookup_singleton_eq.
  - rewrite lookup_union, lookup_fmap, lookup_delete_ne by done.
    by rewrite lookup_delete_eq, lookup_singleton_ne.
  - intros k H1 H2.
    rewrite lookup_union, lookup_fmap, !lookup_delete_ne by done.
    rewrite lookup_singleton_ne by done. by destruct (props !! k).
Qed.

(** X13.  [Modal.Header], [Modal.Title], [Modal.Content], [Modal.Subtitle] and
    [Modal.Actions] (lines 297-375) take [className] out of the props
    before the spread.  Each has an element and a base class of its own,
    and for all props its class is [cn(base, className)]: the caller's
    class is merged by [cn] and cannot replace the base, unlike in
    [Modal.Body].  [children] is rendered inside and every other prop
    reaches the element unchanged. *)
Theorem styled_className_is_merged cn :
  Forall
    (λ component : gmap string Val → Node,
       ∃ tag base, ∀ props, ∃ attrs,
         component props = NElem tag attrs (nodes_of (get "children" props))
         ∧ attrs !! "className"
           = Some (AVal (VStr (cn [VStr base; get "className" props])))
         ∧ attrs !! "children" = None
         ∧ ∀ k, k ≠ "children" → k ≠ "className" →
             attrs !! k = AVal <$> props !! k)
    [Modal_Header cn; Modal_Title cn; Modal_Content cn; Modal_Subtitle cn;
     Modal_Actions cn].
Proof.
  repeat constructor; eexists _, _; intros props; apply styled_attrs.
Qed.

(** ** Clicking again while the handler's promise is pending *)

Lemma step_action_pending w props name body p :
  props !! "onClick" = Some (VFn (FnUser name body (Normal (VPromise p)))) →
  st_settled w !! p = None →
  let w' := step w (EvClickAction props) in
  st_trace w'
  = st_trace w ++ Invoked ByAction (CUser name) :: body_trace (ByUser name) body
  ∧ st_parked w' = st_parked w ++ [(p, FnCloseModal)]
  ∧ st_settled w' = st_settled w.
Proof.
  intros Hprops Hp w'. subst w'.
  rewrite step_trace, step_parked, step_settled, handle_click_action.
  rewrite (get_Some _ _ _ Hprops), (action_click_promise _ p) by done.
  cbv zeta. by rewrite Hp.
Qed.

(** X14.  [Modal.Action] does nothing to stop a second click while the promise
    of the first is pending (lines 391-396): the handler is called again
    and a second click is suspended on the same promise, next to the
    first. *)
Theorem action_click_is_not_guarded w props name body p :
  props !! "onClick" = Some (VFn (FnUser name body (Normal (VPromise p)))) →
  st_settled w !! p = None →
  let ran := Invoked ByAction (CUser name) :: body_trace (ByUser name) body in
  let w2 := run w [EvClickAction props; EvClickAction props] in
  st_trace w2 = st_trace w ++ ran ++ ran
  ∧ st_parked w2 = st_parked w ++ [(p, FnCloseModal); (p, FnCloseModal)].
Proof.
  intros Hprops Hp ran w2. subst w2 ran. cbn [run foldl].
  destruct (step_action_pending w props name body p Hprops Hp)
    as (Ht1 & Hp1 & Hs1).
  destruct (step_action_pending (step w (EvClickAction props))
              props name body p Hprops) as (Ht2 & Hp2 & _);
    [by rewrite Hs1|].
  rewrite Ht2, Hp2, Ht1, Hp1. by rewrite <- !app_assoc.
Qed.

Lemma action_click_is_not_guarded_witness :
  let save := VFn (FnUser "save" [] (Normal (VPromise 7))) in
  let w := run mounted_provider [EvRenderModal ∅; EvCall CallOpenModal] in
  let w2 := run w [EvClickAction {["onClick" := save]};
                   EvClickAction {["onClick" := save]}] in
  st_trace w2
  = [Invoked ByApp COpenModal; Invoked ByAction (CUser "save");
     Invoked ByAction (CUser "save")]
  ∧ st_parked w2 = [(7, FnCloseModal); (7, FnCloseModal)].
Proof.
  intros save w w2.
  destruct (action_click_is_not_guarded w {["onClick" := save]} "save" [] 7)
    as [H1 H2].
  { reflexivity. }
  { reflexivity. }
  split; [exact H1 | exact H2].
Defined.
